(** * Live Interview Mode: chunk admission, response parsing and staggered
      presentation

    A shallow embedding of the two [LiveInterviewMode] components: the basic
    one ([src/components/LiveInterview/LiveInterviewMode.tsx]) and the
    enhanced one with staggered response updates.  React state cells and
    refs become fields of one record, every handler becomes a function that
    threads that record, and the asynchronous [processAudioChunk] is split at
    its first [await] into the part that runs on the caller's stack and the
    part that runs when the awaited calls have settled. *)

From Stdlib Require Import ZArith String Ascii List Bool Lia.
From Stdlib Require Import PrimFloat.
From stdpp Require Import gmap strings list pretty.

Set Warnings "-inexact-float".
Local Open Scope Z_scope.

(** ** JavaScript strings

    Strings are sequences of code units; the model keeps the code units
    below 256, which covers every marker the parser looks for. *)
Module JsString.

(** [\s] of a regular expression and the characters removed by
    [String.prototype.trim] coincide: TAB, LF, VT, FF, CR, SPACE, NBSP. *)
Definition isSpace (c : ascii) : bool :=
  let n := nat_of_ascii c in
  ((9 <=? n)%nat && (n <=? 13)%nat) || (n =? 32)%nat || (n =? 160)%nat.

(** [s.length]. *)
Definition jsLength (s : string) : Z := Z.of_nat (String.length s).

(** [s.startsWith(p)], the test behind every literal of a pattern. *)
Fixpoint startsWith (p s : string) : bool :=
  match p, s with
  | EmptyString, _ => true
  | String a p', String b s' => Ascii.eqb a b && startsWith p' s'
  | String _ _, EmptyString => false
  end.

(** [s.includes(sub)]. *)
Fixpoint includes (sub s : string) : bool :=
  startsWith sub s ||
  match s with
  | EmptyString => false
  | String _ s' => includes sub s'
  end.

(** [s.slice(n)]: the string without its first [n] code units. *)
Fixpoint dropChars (n : nat) (s : string) : string :=
  match n, s with
  | O, _ => s
  | S n', String _ s' => dropChars n' s'
  | S _, EmptyString => EmptyString
  end.

(** The text after the leftmost occurrence of [marker], if there is one:
    where a pattern that starts with the literal [marker] begins to match. *)
Fixpoint afterFirst (marker s : string) : option string :=
  if startsWith marker s
  then Some (dropChars (String.length marker) s)
  else match s with
       | EmptyString => None
       | String _ s' => afterFirst marker s'
       end.

(** A greedy [\s*]: all leading white space is consumed. *)
Fixpoint skipSpaces (s : string) : string :=
  match s with
  | String c s' => if isSpace c then skipSpaces s' else s
  | EmptyString => EmptyString
  end.

(** [s.trimEnd()]. *)
Fixpoint trimEnd (s : string) : string :=
  match s with
  | EmptyString => EmptyString
  | String c s' =>
      match trimEnd s' with
      | EmptyString => if isSpace c then EmptyString else String c EmptyString
      | r => String c r
      end
  end.

(** [s.trim()]. *)
Definition trim (s : string) : string := trimEnd (skipSpaces s).

(** One code unit of [s.toLowerCase()]: A-Z and the upper-case letters of
    Latin-1 move up by 32, every other code unit below 256 is unchanged. *)
Definition lowerChar (c : ascii) : ascii :=
  let n := nat_of_ascii c in
  if ((65 <=? n)%nat && (n <=? 90)%nat)
     || ((192 <=? n)%nat && (n <=? 222)%nat && negb (n =? 215)%nat)
  then ascii_of_nat (n + 32) else c.

(** [s.toLowerCase()]. *)
Fixpoint toLowerCase (s : string) : string :=
  match s with
  | EmptyString => EmptyString
  | String c s' => String (lowerChar c) (toLowerCase s')
  end.

(** A lazy [(.*?)] under the [s] flag followed by a lookahead: the shortest
    prefix after which [ahead] holds.  Every lookahead of the component has
    [$] as an alternative, so the end of the text always stops it. *)
Fixpoint lazyUntil (ahead : string -> bool) (s : string) : string :=
  if ahead s then EmptyString
  else match s with
       | EmptyString => EmptyString
       | String c s' => String c (lazyUntil ahead s')
       end.

(** [value || fallback] on strings: the empty string is falsy. *)
Definition orElse (value fallback : string) : string :=
  match value with
  | EmptyString => fallback
  | _ => value
  end.

Definition newline : ascii := ascii_of_nat 10.

End JsString.

Import JsString.

(** ** The response parser

    The part of [processAudioChunk] between reading [content] and building
    the [GeminiResponse]: text in, a record or a rejection out. *)

Inductive Variant := Basic | Enhanced.

Inductive Parsed :=
| Rejected
| Accepted (transcription answer : string) (confidence : float).

Module Parser.

(** [(?=\n\s*ANSWER:|$)], the lookahead of the enhanced component. *)
Definition aheadEnhanced (s : string) : bool :=
  match s with
  | EmptyString => true
  | String c s' => Ascii.eqb c newline && startsWith "ANSWER:" (skipSpaces s')
  end.

(** [(?=ANSWER:|$)], the lookahead of the basic component. *)
Definition aheadBasic (s : string) : bool :=
  match s with
  | EmptyString => true
  | _ => startsWith "ANSWER:" s
  end.

(** Capture group 1 of the [TRANSCRIPTION:] pattern: the marker, greedy
    white space, then a lazy dot-all capture up to the lookahead. *)
Definition transcriptionMatch (v : Variant) (content : string) : option string :=
  match afterFirst "TRANSCRIPTION:" content with
  | None => None
  | Some rest =>
      Some (lazyUntil (match v with Basic => aheadBasic | Enhanced => aheadEnhanced end)
                      (skipSpaces rest))
  end.

(** Capture group 1 of the [ANSWER:] pattern: the marker, greedy white
    space, then a greedy dot-all capture, which is the rest of the text. *)
Definition answerMatch (content : string) : option string :=
  match afterFirst "ANSWER:" content with
  | None => None
  | Some rest => Some (skipSpaces rest)
  end.

(** [m?.[1]?.trim() || fallback]. *)
Definition captureOr (m : option string) (fallback : string) : string :=
  match m with
  | None => fallback
  | Some captured => orElse (trim captured) fallback
  end.

Definition transcriptionOf (v : Variant) (content : string) : string :=
  captureOr (transcriptionMatch v content)
            (match v with Basic => "Could not transcribe audio" | Enhanced => "" end).

Definition answerOf (v : Variant) (content : string) : string :=
  captureOr (answerMatch content)
            (match v with Basic => "No response generated" | Enhanced => trim content end).

(** The first guard: the sentinel, and in the enhanced component also an
    empty or short text. *)
Definition contentRejected (v : Variant) (content : string) : bool :=
  match v with
  | Basic => includes "UNCLEAR_AUDIO" content
  | Enhanced =>
      match content with EmptyString => true | _ => false end
      || includes "UNCLEAR_AUDIO" content
      || (jsLength content <? 20)
  end.

(** The second guard, on the extracted transcription. *)
Definition transcriptionRejected (v : Variant) (transcription : string) : bool :=
  match v with
  | Basic => jsLength transcription <? 10
  | Enhanced =>
      (jsLength transcription <? 5)
      || includes "unclear" (toLowerCase transcription)
      || includes "inaudible" (toLowerCase transcription)
  end.

(** The confidence of an accepted record; the basic component has the
    constant [0.8]. *)
Definition confidenceOf (v : Variant) (currentLanguage transcription answer : string) : float :=
  match v with
  | Basic => 0.8%float
  | Enhanced =>
      let confidence := 0.7%float in
      let confidence :=
        if (20 <? jsLength transcription) && (30 <? jsLength answer)
        then 0.9%float else confidence in
      let confidence :=
        if includes "?" transcription then (confidence + 0.05)%float else confidence in
      let confidence :=
        if includes (toLowerCase currentLanguage) answer
        then (confidence + 0.05)%float else confidence in
      (* Math.min(confidence, 0.95) *)
      if (confidence <? 0.95)%float then confidence else 0.95%float
  end.

Definition parseResponse (v : Variant) (currentLanguage content : string) : Parsed :=
  if contentRejected v content then Rejected
  else
    let transcription := transcriptionOf v content in
    let answer := answerOf v content in
    if transcriptionRejected v transcription then Rejected
    else Accepted transcription answer (confidenceOf v currentLanguage transcription answer).

(** Both guards of the enhanced component, as one test on the text. *)
Definition passesQualityChecks (content : string) : bool :=
  negb (contentRejected Enhanced content)
  && negb (transcriptionRejected Enhanced (transcriptionOf Enhanced content)).

End Parser.

(** ** Data model *)

(** Of a [Blob] the component reads the size only. *)
Module Blob.
Record t := mk { size : Z }.
End Blob.

Module GeminiResponse.
Record t := mk {
  id : string;
  transcription : string;
  answer : string;
  confidence : float;
  timestamp : Z;
  isProcessing : bool;   (* optional in the source; absent reads as false *)
  isStale : bool;        (* optional in the source; absent reads as false *)
}.

(** The object spread that sets [isStale: true]. *)
Definition markStale (r : t) : t :=
  mk (id r) (transcription r) (answer r) (confidence r) (timestamp r)
     (isProcessing r) true.
End GeminiResponse.

(** A value of the [ProcessingQueue] mapping.  A promise is named by the
    number of the [processAudioChunk] call that returned it. *)
Module QueueEntry.
Record t := mk {
  audioBlob : Blob.t;
  timestamp : Z;
  promise : nat;
}.
End QueueEntry.

(** What an observer of the component can see happen, in the order in which
    it happens.  The list of these in the state is bookkeeping of the model:
    no handler reads it. *)
Inductive Effect :=
| Registered (chunkId : string) (promise : nat)  (* processingQueueRef.current[chunkId] = ... *)
| Released (chunkId : string) (promise : nat)    (* delete processingQueueRef.current[chunkId] *)
| Flushed (now : Z)                              (* buffered responses moved into the list *)
| Settled (promise : nat)                        (* a processAudioChunk promise resolved *)
| TracksStopped                                  (* track.stop() on every track of the stream *)
| ContextClosed                                  (* audioContextRef.current.close() *)
| AllCompleted (stop : nat).                     (* 'All audio processing completed' *)

#[global] Instance Effect_eq_dec : EqDecision Effect.
Proof. solve_decision. Defined.

(** The values that the handlers of one recording session close over.
    [audioLevel] is among them: [recordChunk] and [onstop] read the value
    that their closure captured, not the live state cell, so [setAudioLevel]
    has no counterpart below.  Notifications ([showToast]) and the
    screenshot trigger change nothing that a handler reads and are left
    out. *)
Record Config := mkConfig {
  variant : Variant;
  currentLanguage : string;
  maxConcurrentProcessing : Z;
  responseUpdateDelay : Z;
  audioLevel : float;
  minAudioLevel : float;
}.

(** The [useState] cells, the [useRef] cells, and what the event loop
    holds for the component: armed flush timers (by due time), recorders in
    state [recording] (by chunk id), [processAudioChunk] calls waiting at an
    [await] (promise number to chunk id), and the [Promise.all] of every
    stop that has not resolved yet (stop number to promises still pending). *)
Record State := mkState {
  activeProcessingCount : Z;
  responses : list GeminiResponse.t;
  currentTranscription : string;
  isListening : bool;
  streamRef : bool;
  audioContextRef : bool;
  processingQueueRef : gmap string QueueEntry.t;
  chunkCounterRef : Z;
  continuousRecordingRef : bool;
  recordingIntervalRef : bool;
  lastResponseTimeRef : Z;
  pendingResponsesRef : list GeminiResponse.t;
  flushTimers : list Z;
  recorders : list string;
  suspended : gmap nat string;
  nextPromise : nat;
  stopWaiters : list (nat * gset nat);
  nextStop : nat;
  trace : list Effect;
}.

Definition set_activeProcessingCount (v : Z) (st : State) : State :=
  mkState v (responses st) (currentTranscription st) (isListening st)
    (streamRef st) (audioContextRef st) (processingQueueRef st)
    (chunkCounterRef st) (continuousRecordingRef st) (recordingIntervalRef
    st) (lastResponseTimeRef st) (pendingResponsesRef st) (flushTimers st)
    (recorders st) (suspended st) (nextPromise st) (stopWaiters st)
    (nextStop st) (trace st).

Definition set_responses (v : list GeminiResponse.t) (st : State) : State :=
  mkState (activeProcessingCount st) v (currentTranscription st)
    (isListening st) (streamRef st) (audioContextRef st) (processingQueueRef
    st) (chunkCounterRef st) (continuousRecordingRef st)
    (recordingIntervalRef st) (lastResponseTimeRef st) (pendingResponsesRef
    st) (flushTimers st) (recorders st) (suspended st) (nextPromise st)
    (stopWaiters st) (nextStop st) (trace st).

Definition set_currentTranscription (v : string) (st : State) : State :=
  mkState (activeProcessingCount st) (responses st) v (isListening st)
    (streamRef st) (audioContextRef st) (processingQueueRef st)
    (chunkCounterRef st) (continuousRecordingRef st) (recordingIntervalRef
    st) (lastResponseTimeRef st) (pendingResponsesRef st) (flushTimers st)
    (recorders st) (suspended st) (nextPromise st) (stopWaiters st)
    (nextStop st) (trace st).

Definition set_isListening (v : bool) (st : State) : State :=
  mkState (activeProcessingCount st) (responses st) (currentTranscription
    st) v (streamRef st) (audioContextRef st) (processingQueueRef st)
    (chunkCounterRef st) (continuousRecordingRef st) (recordingIntervalRef
    st) (lastResponseTimeRef st) (pendingResponsesRef st) (flushTimers st)
    (recorders st) (suspended st) (nextPromise st) (stopWaiters st)
    (nextStop st) (trace st).

Definition set_streamRef (v : bool) (st : State) : State :=
  mkState (activeProcessingCount st) (responses st) (currentTranscription
    st) (isListening st) v (audioContextRef st) (processingQueueRef st)
    (chunkCounterRef st) (continuousRecordingRef st) (recordingIntervalRef
    st) (lastResponseTimeRef st) (pendingResponsesRef st) (flushTimers st)
    (recorders st) (suspended st) (nextPromise st) (stopWaiters st)
    (nextStop st) (trace st).

Definition set_audioContextRef (v : bool) (st : State) : State :=
  mkState (activeProcessingCount st) (responses st) (currentTranscription
    st) (isListening st) (streamRef st) v (processingQueueRef st)
    (chunkCounterRef st) (continuousRecordingRef st) (recordingIntervalRef
    st) (lastResponseTimeRef st) (pendingResponsesRef st) (flushTimers st)
    (recorders st) (suspended st) (nextPromise st) (stopWaiters st)
    (nextStop st) (trace st).

Definition set_processingQueueRef (v : gmap string QueueEntry.t) (st : State) : State :=
  mkState (activeProcessingCount st) (responses st) (currentTranscription
    st) (isListening st) (streamRef st) (audioContextRef st) v
    (chunkCounterRef st) (continuousRecordingRef st) (recordingIntervalRef
    st) (lastResponseTimeRef st) (pendingResponsesRef st) (flushTimers st)
    (recorders st) (suspended st) (nextPromise st) (stopWaiters st)
    (nextStop st) (trace st).

Definition set_chunkCounterRef (v : Z) (st : State) : State :=
  mkState (activeProcessingCount st) (responses st) (currentTranscription
    st) (isListening st) (streamRef st) (audioContextRef st)
    (processingQueueRef st) v (continuousRecordingRef st)
    (recordingIntervalRef st) (lastResponseTimeRef st) (pendingResponsesRef
    st) (flushTimers st) (recorders st) (suspended st) (nextPromise st)
    (stopWaiters st) (nextStop st) (trace st).

Definition set_continuousRecordingRef (v : bool) (st : State) : State :=
  mkState (activeProcessingCount st) (responses st) (currentTranscription
    st) (isListening st) (streamRef st) (audioContextRef st)
    (processingQueueRef st) (chunkCounterRef st) v (recordingIntervalRef st)
    (lastResponseTimeRef st) (pendingResponsesRef st) (flushTimers st)
    (recorders st) (suspended st) (nextPromise st) (stopWaiters st)
    (nextStop st) (trace st).

Definition set_recordingIntervalRef (v : bool) (st : State) : State :=
  mkState (activeProcessingCount st) (responses st) (currentTranscription
    st) (isListening st) (streamRef st) (audioContextRef st)
    (processingQueueRef st) (chunkCounterRef st) (continuousRecordingRef st)
    v (lastResponseTimeRef st) (pendingResponsesRef st) (flushTimers st)
    (recorders st) (suspended st) (nextPromise st) (stopWaiters st)
    (nextStop st) (trace st).

Definition set_lastResponseTimeRef (v : Z) (st : State) : State :=
  mkState (activeProcessingCount st) (responses st) (currentTranscription
    st) (isListening st) (streamRef st) (audioContextRef st)
    (processingQueueRef st) (chunkCounterRef st) (continuousRecordingRef st)
    (recordingIntervalRef st) v (pendingResponsesRef st) (flushTimers st)
    (recorders st) (suspended st) (nextPromise st) (stopWaiters st)
    (nextStop st) (trace st).

Definition set_pendingResponsesRef (v : list GeminiResponse.t) (st : State) : State :=
  mkState (activeProcessingCount st) (responses st) (currentTranscription
    st) (isListening st) (streamRef st) (audioContextRef st)
    (processingQueueRef st) (chunkCounterRef st) (continuousRecordingRef st)
    (recordingIntervalRef st) (lastResponseTimeRef st) v (flushTimers st)
    (recorders st) (suspended st) (nextPromise st) (stopWaiters st)
    (nextStop st) (trace st).

Definition set_flushTimers (v : list Z) (st : State) : State :=
  mkState (activeProcessingCount st) (responses st) (currentTranscription
    st) (isListening st) (streamRef st) (audioContextRef st)
    (processingQueueRef st) (chunkCounterRef st) (continuousRecordingRef st)
    (recordingIntervalRef st) (lastResponseTimeRef st) (pendingResponsesRef
    st) v (recorders st) (suspended st) (nextPromise st) (stopWaiters st)
    (nextStop st) (trace st).

Definition set_recorders (v : list string) (st : State) : State :=
  mkState (activeProcessingCount st) (responses st) (currentTranscription
    st) (isListening st) (streamRef st) (audioContextRef st)
    (processingQueueRef st) (chunkCounterRef st) (continuousRecordingRef st)
    (recordingIntervalRef st) (lastResponseTimeRef st) (pendingResponsesRef
    st) (flushTimers st) v (suspended st) (nextPromise st) (stopWaiters st)
    (nextStop st) (trace st).

Definition set_suspended (v : gmap nat string) (st : State) : State :=
  mkState (activeProcessingCount st) (responses st) (currentTranscription
    st) (isListening st) (streamRef st) (audioContextRef st)
    (processingQueueRef st) (chunkCounterRef st) (continuousRecordingRef st)
    (recordingIntervalRef st) (lastResponseTimeRef st) (pendingResponsesRef
    st) (flushTimers st) (recorders st) v (nextPromise st) (stopWaiters st)
    (nextStop st) (trace st).

Definition set_nextPromise (v : nat) (st : State) : State :=
  mkState (activeProcessingCount st) (responses st) (currentTranscription
    st) (isListening st) (streamRef st) (audioContextRef st)
    (processingQueueRef st) (chunkCounterRef st) (continuousRecordingRef st)
    (recordingIntervalRef st) (lastResponseTimeRef st) (pendingResponsesRef
    st) (flushTimers st) (recorders st) (suspended st) v (stopWaiters st)
    (nextStop st) (trace st).

Definition set_stopWaiters (v : list (nat * gset nat)) (st : State) : State :=
  mkState (activeProcessingCount st) (responses st) (currentTranscription
    st) (isListening st) (streamRef st) (audioContextRef st)
    (processingQueueRef st) (chunkCounterRef st) (continuousRecordingRef st)
    (recordingIntervalRef st) (lastResponseTimeRef st) (pendingResponsesRef
    st) (flushTimers st) (recorders st) (suspended st) (nextPromise st) v
    (nextStop st) (trace st).

Definition set_nextStop (v : nat) (st : State) : State :=
  mkState (activeProcessingCount st) (responses st) (currentTranscription
    st) (isListening st) (streamRef st) (audioContextRef st)
    (processingQueueRef st) (chunkCounterRef st) (continuousRecordingRef st)
    (recordingIntervalRef st) (lastResponseTimeRef st) (pendingResponsesRef
    st) (flushTimers st) (recorders st) (suspended st) (nextPromise st)
    (stopWaiters st) v (trace st).

Definition set_trace (v : list Effect) (st : State) : State :=
  mkState (activeProcessingCount st) (responses st) (currentTranscription
    st) (isListening st) (streamRef st) (audioContextRef st)
    (processingQueueRef st) (chunkCounterRef st) (continuousRecordingRef st)
    (recordingIntervalRef st) (lastResponseTimeRef st) (pendingResponsesRef
    st) (flushTimers st) (recorders st) (suspended st) (nextPromise st)
    (stopWaiters st) (nextStop st) v.

Definition log (e : Effect) (st : State) : State :=
  set_trace (trace st ++ [e]) st.

Definition initialState : State :=
  mkState 0 [] "" false false false ∅ 0 false false 0 [] [] [] ∅ 0%nat [] 0%nat [].

(** ** The handlers *)

Inductive Outcome :=
| Thrown                      (* an awaited call rejected, or a [throw] ran *)
| Content (text : string).    (* the text of the first part, or the empty string *)

Inductive Completion := Normal | Return | Throw.

(** What the environment of the component can make happen: a click, a
    timer or an interval that fires, a recorder that stops, awaited calls
    that finish. *)
Inductive Event :=
| StartListening (now : Z)
| StartContinuousRecording (now : Z)
| RecordChunk (now : Z)
| RecorderStop (k : nat) (now : Z) (data : list Blob.t)
| AwaitsDone (promise : nat) (now : Z) (o : Outcome)
| FlushTimer (k : nat) (now : Z)
| StopListening
| ClearResponses.

(** The updater of the counter in the [finally] block. *)
Definition decrement (prev : Z) : Z := Z.max 0 (prev - 1).

Section Component.

Context (cfg : Config).

(** [generateChunkId]: the counter is incremented before it is read. *)
Definition generateChunkId (now : Z) (st : State) : string * State :=
  let n := chunkCounterRef st + 1 in
  ("chunk_" +:+ pretty now +:+ "_" +:+ pretty n, set_chunkCounterRef n st).

(** *** The staggered presenter (enhanced component) *)

(** The updater given to [setResponses] by a flush. *)
Definition flushUpdater (responsesToAdd prev : list GeminiResponse.t)
  : list GeminiResponse.t :=
  let updatedPrev :=
    if (15 <? length prev)%nat
    then imap (fun i r => if (10 <? i)%nat then GeminiResponse.markStale r else r) prev
    else prev in
  take 20 (responsesToAdd ++ updatedPrev).

(** Both branches of [updateResponsesWithDelay] move the buffer into the
    list in the same way; they differ in when [Date.now()] is read. *)
Definition flush (now : Z) (st : State) : State :=
  let responsesToAdd := pendingResponsesRef st in
  let st := set_pendingResponsesRef [] st in
  let st := set_lastResponseTimeRef now st in
  log (Flushed now) (set_responses (flushUpdater responsesToAdd (responses st)) st).

Definition updateResponsesWithDelay (now : Z) (newResponse : GeminiResponse.t)
    (st : State) : State :=
  let st := set_pendingResponsesRef (pendingResponsesRef st ++ [newResponse]) st in
  if responseUpdateDelay cfg <=? now - lastResponseTimeRef st
  then flush now st
  else
    (* setTimeout(..., responseUpdateDelay - (now - lastResponseTimeRef.current)) *)
    set_flushTimers
      (flushTimers st
       ++ [now + (responseUpdateDelay cfg - (now - lastResponseTimeRef st))]) st.

(** The callback given to [setTimeout]. *)
Definition flushCallback (now : Z) (st : State) : State :=
  if (0 <? length (pendingResponsesRef st))%nat then flush now st else st.

(** The [k]-th armed timer fires; a timer does not fire before it is due. *)
Definition fireFlushTimer (k : nat) (now : Z) (st : State) : State :=
  match flushTimers st !! k with
  | Some due =>
      if due <=? now
      then flushCallback now (set_flushTimers (delete k (flushTimers st)) st)
      else st
  | None => st
  end.

(** *** [processAudioChunk] *)

Definition placeholderResponse (now : Z) (chunkId : string) : GeminiResponse.t :=
  match variant cfg with
  | Basic =>
      GeminiResponse.mk chunkId "Processing audio..." "Generating response..."
                        0%float now true false
  | Enhanced =>
      GeminiResponse.mk chunkId "Analyzing audio..." "Processing your question..."
                        0%float now true false
  end.

(** [prev.filter(r => r.id !== chunkId)]. *)
Definition removePlaceholder (chunkId : string) (prev : list GeminiResponse.t)
  : list GeminiResponse.t :=
  filter (fun r => GeminiResponse.id r <> chunkId) prev.

(** [prev.map(r => r.id === chunkId ? geminiResponse : r)]. *)
Definition replacePlaceholder (chunkId : string) (geminiResponse : GeminiResponse.t)
    (prev : list GeminiResponse.t) : list GeminiResponse.t :=
  (fun r => if decide (GeminiResponse.id r = chunkId) then geminiResponse else r) <$> prev.

(** The call up to its first [await]: this part runs inside [onstop].  The
    enhanced component returns before the [try] when the blob is small, and
    the promise is then resolved at once. *)
Definition processAudioChunk_begin (now : Z) (audioBlob : Blob.t) (chunkId : string)
    (st : State) : nat * State :=
  let promise := nextPromise st in
  let st := set_nextPromise (S promise) st in
  match variant cfg with
  | Basic =>
      let st := set_activeProcessingCount (activeProcessingCount st + 1) st in
      let st := set_responses (placeholderResponse now chunkId :: take 19 (responses st)) st in
      (promise, set_suspended (<[promise := chunkId]> (suspended st)) st)
  | Enhanced =>
      if Blob.size audioBlob <? 5000 then (promise, log (Settled promise) st)
      else
        let st := set_activeProcessingCount (activeProcessingCount st + 1) st in
        let st := updateResponsesWithDelay now (placeholderResponse now chunkId) st in
        (promise, set_suspended (<[promise := chunkId]> (suspended st)) st)
  end.

(** The [try] block once the awaited calls are done. *)
Definition tryBlock (now : Z) (chunkId : string) (o : Outcome) (st : State)
  : Completion * State :=
  match o with
  | Thrown => (Throw, st)
  | Content content =>
      match Parser.parseResponse (variant cfg) (currentLanguage cfg) content with
      | Rejected =>
          (Return, set_responses (removePlaceholder chunkId (responses st)) st)
      | Accepted transcription answer confidence =>
          let geminiResponse :=
            GeminiResponse.mk chunkId transcription answer confidence now false false in
          let st := set_responses (replacePlaceholder chunkId geminiResponse (responses st)) st in
          (Normal, set_currentTranscription transcription st)
      end
  end.

Definition catchBlock (chunkId : string) (st : State) : State :=
  set_responses (removePlaceholder chunkId (responses st)) st.

Definition finallyBlock (chunkId : string) (promise : nat) (st : State) : State :=
  let st := set_activeProcessingCount (decrement (activeProcessingCount st)) st in
  let st := set_processingQueueRef (delete chunkId (processingQueueRef st)) st in
  log (Released chunkId promise) st.

(** The rest of the call: [try], [catch] when something was thrown, and
    [finally] on every path. *)
Definition processAudioChunk_resume (now : Z) (promise : nat) (chunkId : string)
    (o : Outcome) (st : State) : State :=
  let '(completion, st) := tryBlock now chunkId o st in
  let st := match completion with
            | Throw => catchBlock chunkId st
            | Normal | Return => st
            end in
  finallyBlock chunkId promise st.

(** *** Promises awaited by a stop *)

(** A [Promise.all] resolves when none of its promises is pending. *)
Definition resolvedOf (ws : list (nat * gset nat)) : list (nat * gset nat) :=
  filter (fun w => w.2 = ∅) ws.

Definition waitingOf (ws : list (nat * gset nat)) : list (nat * gset nat) :=
  filter (fun w => w.2 <> ∅) ws.

Definition settledIn (promise : nat) (ws : list (nat * gset nat))
  : list (nat * gset nat) :=
  (fun w => (w.1, w.2 ∖ {[promise]})) <$> ws.

(** The reactions of the resolved [Promise.all]s run: each logs its
    message. *)
Definition drainWaiters (st : State) : State :=
  set_trace (trace st ++ ((fun w => AllCompleted w.1) <$> resolvedOf (stopWaiters st)))
            (set_stopWaiters (waitingOf (stopWaiters st)) st).

Definition settleWaiters (promise : nat) (st : State) : State :=
  set_stopWaiters (settledIn promise (stopWaiters st)) st.

(** The awaited calls of a suspended [processAudioChunk] are done. *)
Definition awaitsDone (promise : nat) (now : Z) (o : Outcome) (st : State) : State :=
  match suspended st !! promise with
  | None => st
  | Some chunkId =>
      let st := set_suspended (delete promise (suspended st)) st in
      let st := processAudioChunk_resume now promise chunkId o st in
      drainWaiters (settleWaiters promise (log (Settled promise) st))
  end.

(** *** Recording *)

(** [Object.keys(processingQueueRef.current).length]. *)
Definition queueLength (st : State) : Z := Z.of_nat (size (processingQueueRef st)).

Definition shouldProcess (audioBlob : Blob.t) (st : State) : bool :=
  match variant cfg with
  | Basic =>
      (1000 <? Blob.size audioBlob)
      && (queueLength st <? maxConcurrentProcessing cfg)
  | Enhanced =>
      (8000 <? Blob.size audioBlob)
      && (queueLength st <? maxConcurrentProcessing cfg)
      && (minAudioLevel cfg <? audioLevel cfg)%float
  end.

(** [new Blob(chunks)]. *)
Definition blobOf (chunks : list Blob.t) : Blob.t :=
  Blob.mk (foldr (fun b n => Blob.size b + n) 0 chunks).

(** [mediaRecorder.onstop]: the call is made first, the entry that holds
    its promise is stored after it. *)
Definition onstop (now : Z) (chunkId : string) (chunks : list Blob.t) (st : State)
  : State :=
  if (0 <? length chunks)%nat then
    let audioBlob := blobOf chunks in
    if shouldProcess audioBlob st then
      let '(processingPromise, st) := processAudioChunk_begin now audioBlob chunkId st in
      let st := set_processingQueueRef
                  (<[chunkId := QueueEntry.mk audioBlob now processingPromise]>
                     (processingQueueRef st)) st in
      log (Registered chunkId processingPromise) st
    else st
  else st.

(** The [k]-th active recorder stops; [data] are the blobs of its
    [dataavailable] events, of which [ondataavailable] keeps the non-empty. *)
Definition recorderStop (k : nat) (now : Z) (data : list Blob.t) (st : State) : State :=
  match recorders st !! k with
  | Some chunkId =>
      onstop now chunkId (filter (fun b => 0 < Blob.size b) data)
             (set_recorders (delete k (recorders st)) st)
  | None => st
  end.

(** [recordChunk]; the constructor of the recorder and its [start] are
    taken not to throw. *)
Definition recordChunk (now : Z) (st : State) : State :=
  if negb (continuousRecordingRef st) || negb (streamRef st) then st
  else
    let tooQuiet := match variant cfg with
                    | Basic => false
                    | Enhanced => (audioLevel cfg <? minAudioLevel cfg)%float
                    end in
    if tooQuiet then st
    else
      let '(chunkId, st) := generateChunkId now st in
      set_recorders (recorders st ++ [chunkId]) st.

(** The basic component records its first chunk at once; the enhanced one
    leaves it to a timer. *)
Definition startContinuousRecording (now : Z) (st : State) : State :=
  if negb (streamRef st) || continuousRecordingRef st then st
  else
    let st := set_continuousRecordingRef true st in
    let st := match variant cfg with
              | Basic => recordChunk now st
              | Enhanced => st
              end in
    set_recordingIntervalRef true st.

(** [startListening] when [getUserMedia] has resolved. *)
Definition startListening (now : Z) (st : State) : State :=
  let st := set_streamRef true st in
  let st := set_audioContextRef true st in
  let st := set_isListening true st in
  match variant cfg with
  | Basic => startContinuousRecording now st
  | Enhanced => st
  end.

(** The promises in the queue that have not resolved. *)
Definition pendingPromises (st : State) : gset nat :=
  filter (fun p => is_Some (suspended st !! p))
         (map_img (QueueEntry.promise <$> processingQueueRef st)).

Definition stopContinuousRecording (st : State) : State :=
  let st := set_continuousRecordingRef false st in
  let st := set_recordingIntervalRef false st in
  let st := match variant cfg with
            | Basic => st
            | Enhanced => set_pendingResponsesRef [] st
            end in
  let st := set_stopWaiters (stopWaiters st ++ [(nextStop st, pendingPromises st)]) st in
  set_nextStop (S (nextStop st)) st.

(** [stopListening] is not asynchronous: every statement below runs before
    any reaction of a promise. *)
Definition stopListening (st : State) : State :=
  let st := stopContinuousRecording st in
  let st := if streamRef st then log TracksStopped (set_streamRef false st) else st in
  let st := if audioContextRef st
            then log ContextClosed (set_audioContextRef false st) else st in
  let st := set_isListening false st in
  let st := match variant cfg with
            | Basic => st
            | Enhanced => set_currentTranscription "" st
            end in
  drainWaiters st.

(** [clearResponses] exists in the enhanced component only. *)
Definition clearResponses (st : State) : State :=
  match variant cfg with
  | Basic => st
  | Enhanced =>
      set_pendingResponsesRef [] (set_currentTranscription "" (set_responses [] st))
  end.

(** *** The event loop *)

Definition step (st : State) (e : Event) : State :=
  match e with
  | StartListening now => startListening now st
  | StartContinuousRecording now => startContinuousRecording now st
  | RecordChunk now => recordChunk now st
  | RecorderStop k now data => recorderStop k now data st
  | AwaitsDone promise now o => awaitsDone promise now o st
  | FlushTimer k now => fireFlushTimer k now st
  | StopListening => stopListening st
  | ClearResponses => clearResponses st
  end.

Definition run (evs : list Event) (st : State) : State := foldl step st evs.

End Component.

(** ** Vocabulary of the statements *)

(** Only white space. *)
Fixpoint blank (s : string) : bool :=
  match s with
  | EmptyString => true
  | String c s' => isSpace c && blank s'
  end.

Definition isRequest (e : Effect) : bool :=
  match e with
  | Registered _ _ | Released _ _ => true
  | _ => false
  end.

(** The registrations and releases of a trace, in order. *)
Definition requests (tr : list Effect) : list Effect := List.filter isRequest tr.

(** What a step does to the suspended calls, to the promise counter and to
    the registrations and releases of the trace. *)
Inductive RequestStep (st st' : State) : Prop :=
| request_none :
    suspended st' = suspended st ->
    nextPromise st' = nextPromise st ->
    requests (trace st') = requests (trace st) ->
    RequestStep st st'
| request_admit chunkId :
    suspended st' = <[nextPromise st := chunkId]> (suspended st) ->
    nextPromise st' = S (nextPromise st) ->
    requests (trace st') = requests (trace st) ++ [Registered chunkId (nextPromise st)] ->
    RequestStep st st'
| request_settle promise chunkId :
    suspended st !! promise = Some chunkId ->
    suspended st' = delete promise (suspended st) ->
    nextPromise st' = nextPromise st ->
    requests (trace st') = requests (trace st) ++ [Released chunkId promise] ->
    RequestStep st st'.

(** The bookkeeping that every run keeps: promise numbers are handed out
    in order, a released entry belongs to a call that is no longer
    suspended, and a registered entry is either still waiting for its call
    or has been released once. *)
Record RequestsInv (st : State) : Prop := {
  inv_suspended_lt :
    forall p c, suspended st !! p = Some c -> (p < nextPromise st)%nat;
  inv_registered_lt :
    forall p c, In (Registered c p) (requests (trace st)) -> (p < nextPromise st)%nat;
  inv_released :
    forall p c, In (Released c p) (requests (trace st)) ->
                (p < nextPromise st)%nat /\ suspended st !! p = None;
  inv_registered :
    forall p c, In (Registered c p) (requests (trace st)) ->
                match suspended st !! p with
                | Some c' => c' = c
                | None => count_occ Effect_eq_dec (requests (trace st)) (Released c p) = 1%nat
                end;
}.

Definition isStopEffect (e : Effect) : bool :=
  match e with
  | Settled _ | AllCompleted _ => true
  | _ => false
  end.

(** The settlements and completion messages of a trace, in order. *)
Definition stops (tr : list Effect) : list Effect := List.filter isStopEffect tr.

Definition completions (ws : list (nat * gset nat)) : list Effect :=
  (fun w => AllCompleted w.1) <$> ws.

(** What a step does to the suspended calls, to the waiting [Promise.all]s
    and to the settlements and completion messages of the trace. *)
Inductive StopStep (st st' : State) : Prop :=
| stop_none :
    suspended st' = suspended st ->
    nextPromise st' = nextPromise st ->
    stopWaiters st' = stopWaiters st ->
    nextStop st' = nextStop st ->
    stops (trace st') = stops (trace st) ->
    StopStep st st'
| stop_admit chunkId :
    suspended st' = <[nextPromise st := chunkId]> (suspended st) ->
    nextPromise st' = S (nextPromise st) ->
    stopWaiters st' = stopWaiters st ->
    nextStop st' = nextStop st ->
    stops (trace st') = stops (trace st) ->
    StopStep st st'
| stop_settle promise chunkId :
    suspended st !! promise = Some chunkId ->
    suspended st' = delete promise (suspended st) ->
    nextPromise st' = nextPromise st ->
    stopWaiters st' = waitingOf (settledIn promise (stopWaiters st)) ->
    nextStop st' = nextStop st ->
    stops (trace st')
    = stops (trace st)
      ++ Settled promise :: completions (resolvedOf (settledIn promise (stopWaiters st))) ->
    StopStep st st'
| stop_stop :
    suspended st' = suspended st ->
    nextPromise st' = nextPromise st ->
    stopWaiters st'
    = waitingOf (stopWaiters st ++ [(nextStop st, pendingPromises st)]) ->
    nextStop st' = S (nextStop st) ->
    stops (trace st')
    = stops (trace st)
      ++ completions (resolvedOf (stopWaiters st ++ [(nextStop st, pendingPromises st)])) ->
    StopStep st st'.

(** Promise numbers are handed out in order, a settled promise belongs to
    no suspended call, and stop numbers are handed out in order. *)
Record StopInv (st : State) : Prop := {
  si_suspended_lt :
    forall p c, suspended st !! p = Some c -> (p < nextPromise st)%nat;
  si_settled :
    forall p, In (Settled p) (stops (trace st)) ->
              (p < nextPromise st)%nat /\ suspended st !! p = None;
  si_waiters :
    forall k W, (k, W) ∈ stopWaiters st -> (k < nextStop st)%nat;
  si_completed :
    forall k, In (AllCompleted k) (stops (trace st)) -> (k < nextStop st)%nat;
}.

(** What holds after the stop with number [k0] that awaits the promises
    [W0]: a promise of [W0] that a [Promise.all] of this stop no longer
    waits for has settled, and so have all of them once the message of this
    stop is in the trace. *)
Record AfterStop (k0 : nat) (W0 : gset nat) (st : State) : Prop := {
  as_inv : StopInv st;
  as_number : (k0 < nextStop st)%nat;
  as_waiting :
    forall W, (k0, W) ∈ stopWaiters st ->
              forall p, p ∈ W0 -> p ∉ W -> In (Settled p) (stops (trace st));
  as_completed :
    In (AllCompleted k0) (stops (trace st)) ->
    forall p, p ∈ W0 -> In (Settled p) (stops (trace st));
}.

(** ** Vocabulary of the further properties *)

(** A response in the format that the prompt asks for. *)
Definition formatResponse (transcription answer : string) : string :=
  "TRANSCRIPTION: " +:+ transcription +:+ String newline ("ANSWER: " +:+ answer).

(** No line break among the code units. *)
Fixpoint noNewline (s : string) : bool :=
  match s with
  | EmptyString => true
  | String c s' => negb (Ascii.eqb c newline) && noNewline s'
  end.

(** The identifier that [generateChunkId] builds from the clock and the
    incremented counter. *)
Definition chunkIdOf (now n : Z) : string :=
  "chunk_" +:+ pretty now +:+ "_" +:+ pretty n.

(** An identifier built with a counter value of at most [limit]. *)
Definition generatedUpTo (limit : Z) (chunkId : string) : Prop :=
  exists now n, chunkId = chunkIdOf now n /\ n <= limit.

(** No underscore among the code units. *)
Fixpoint noUnderscore (s : string) : bool :=
  match s with
  | EmptyString => true
  | String c s' => negb (Ascii.eqb c "_") && noUnderscore s'
  end.

(** What a step does to the recorders, to the counter of identifiers, to
    the suspended calls, to the queue and to the counter of active calls. *)
Inductive FlightStep (st st' : State) : Prop :=
| flight_none :
    recorders st' = recorders st ->
    chunkCounterRef st' = chunkCounterRef st ->
    suspended st' = suspended st ->
    nextPromise st' = nextPromise st ->
    processingQueueRef st' = processingQueueRef st ->
    activeProcessingCount st' = activeProcessingCount st ->
    FlightStep st st'
| flight_record now :
    recorders st' = recorders st ++ [chunkIdOf now (chunkCounterRef st + 1)] ->
    chunkCounterRef st' = chunkCounterRef st + 1 ->
    suspended st' = suspended st ->
    nextPromise st' = nextPromise st ->
    processingQueueRef st' = processingQueueRef st ->
    activeProcessingCount st' = activeProcessingCount st ->
    FlightStep st st'
| flight_drop k chunkId :
    recorders st !! k = Some chunkId ->
    recorders st' = delete k (recorders st) ->
    chunkCounterRef st' = chunkCounterRef st ->
    suspended st' = suspended st ->
    nextPromise st' = nextPromise st ->
    processingQueueRef st' = processingQueueRef st ->
    activeProcessingCount st' = activeProcessingCount st ->
    FlightStep st st'
| flight_admit k chunkId entry :
    recorders st !! k = Some chunkId ->
    QueueEntry.promise entry = nextPromise st ->
    recorders st' = delete k (recorders st) ->
    chunkCounterRef st' = chunkCounterRef st ->
    suspended st' = <[nextPromise st := chunkId]> (suspended st) ->
    nextPromise st' = S (nextPromise st) ->
    processingQueueRef st' = <[chunkId := entry]> (processingQueueRef st) ->
    activeProcessingCount st' = activeProcessingCount st + 1 ->
    FlightStep st st'
| flight_settle promise chunkId :
    suspended st !! promise = Some chunkId ->
    recorders st' = recorders st ->
    chunkCounterRef st' = chunkCounterRef st ->
    suspended st' = delete promise (suspended st) ->
    nextPromise st' = nextPromise st ->
    processingQueueRef st' = delete chunkId (processingQueueRef st) ->
    activeProcessingCount st' = decrement (activeProcessingCount st) ->
    FlightStep st st'.

(** What every run keeps about the segments that are alive: identifiers
    come from the counter, no two alive segments share one, every suspended
    call owns the queue entry under its identifier, and the counter of
    active calls counts the suspended calls. *)
Record FlightInv (st : State) : Prop := {
  fi_promise_lt :
    forall p c, suspended st !! p = Some c -> (p < nextPromise st)%nat;
  fi_recorders :
    forall c, c ∈ recorders st -> generatedUpTo (chunkCounterRef st) c;
  fi_suspended :
    forall p c, suspended st !! p = Some c -> generatedUpTo (chunkCounterRef st) c;
  fi_nodup : NoDup (recorders st);
  fi_disjoint :
    forall p c, suspended st !! p = Some c -> c ∉ recorders st;
  fi_injective :
    forall p q c, suspended st !! p = Some c -> suspended st !! q = Some c -> p = q;
  fi_entry :
    forall p c, suspended st !! p = Some c ->
                exists entry, processingQueueRef st !! c = Some entry
                              /\ QueueEntry.promise entry = p;
  fi_owner :
    forall c entry, processingQueueRef st !! c = Some entry ->
                    suspended st !! QueueEntry.promise entry = Some c;
  fi_count : activeProcessingCount st = Z.of_nat (size (suspended st));
  fi_size : size (processingQueueRef st) = size (suspended st);
}.

(** Nothing was ever admitted. *)
Definition nothingAdmitted (st : State) : Prop :=
  processingQueueRef st = ∅ /\ suspended st = ∅ /\ responses st = []
  /\ pendingResponsesRef st = [] /\ activeProcessingCount st = 0.

(** A buffered response has a timer that is due [responseUpdateDelay] after
    the last flush. *)
Definition bufferHasTimer (cfg : Config) (st : State) : Prop :=
  pendingResponsesRef st <> [] ->
  lastResponseTimeRef st + responseUpdateDelay cfg ∈ flushTimers st.

(** Two records with the same identifier and the same processing flag. *)
Definition sameRecord (r' r : GeminiResponse.t) : Prop :=
  GeminiResponse.id r' = GeminiResponse.id r
  /\ GeminiResponse.isProcessing r' = GeminiResponse.isProcessing r.

(** The records that are in the visible list or on their way to it. *)
Definition shown (st : State) : list GeminiResponse.t :=
  pendingResponsesRef st ++ responses st.

(** A record that a step shows or buffers was there before, up to the stale
    mark, or is a placeholder, or carries the identifier of a call that was
    suspended before the step. *)
Definition RecordOrigin (st : State) (r' : GeminiResponse.t) : Prop :=
  (exists r, r ∈ shown st /\ sameRecord r' r)
  \/ GeminiResponse.isProcessing r' = true
  \/ (exists p, suspended st !! p = Some (GeminiResponse.id r')).

(** No call for [chunkId] is suspended or can start, and every record of
    [chunkId] that is shown or buffered is a placeholder. *)
Record Orphaned (chunkId : string) (st : State) : Prop := {
  or_flight : FlightInv st;
  or_suspended : forall q, suspended st !! q <> Some chunkId;
  or_recorders : chunkId ∉ recorders st;
  or_generated : generatedUpTo (chunkCounterRef st) chunkId;
  or_records :
    forall r, r ∈ shown st -> GeminiResponse.id r = chunkId ->
              GeminiResponse.isProcessing r = true;
}.

(** ** The first version of the component

    The version without a queue: one call at a time, guarded by the
    [isProcessing] value that the callback captured, and a history of ten
    responses. *)
Module Legacy.

Record GeminiResponse := mkResponse {
  transcription : string;
  answer : string;
  confidence : float;
  timestamp : Z;
}.

Record State := mkState {
  isProcessing : bool;
  responses : list GeminiResponse;
  currentTranscription : string;
}.

Inductive Outcome :=
| ConfigMissing               (* no key or another provider: toast and [return] *)
| Thrown                      (* an awaited call rejected, or a [throw] ran *)
| Content (text : string).    (* the text of the first part, or the empty string *)

(** The patterns are those of the basic component; there is no guard. *)
Definition parse (now : Z) (content : string) : GeminiResponse :=
  mkResponse (Parser.transcriptionOf Basic content) (Parser.answerOf Basic content)
             0.8%float now.

(** The updater that keeps the last ten responses. *)
Definition addResponse (geminiResponse : GeminiResponse) (prev : list GeminiResponse)
  : list GeminiResponse :=
  geminiResponse :: take 9 prev.

(** The call up to its first [await]; [capturedIsProcessing] is the value
    in the closure of the callback.  The result tells whether the call goes
    on. *)
Definition processAudioChunk_begin (capturedIsProcessing : bool) (st : State)
  : bool * State :=
  if capturedIsProcessing then (false, st)
  else (true, mkState true (responses st) (currentTranscription st)).

(** The rest of the call, with its [finally]. *)
Definition processAudioChunk_resume (now : Z) (o : Outcome) (st : State) : State :=
  let st :=
    match o with
    | ConfigMissing | Thrown => st
    | Content content =>
        let geminiResponse := parse now content in
        mkState (isProcessing st) (addResponse geminiResponse (responses st))
                (transcription geminiResponse)
    end in
  mkState false (responses st) (currentTranscription st).

(** The responses to a list of texts arrive one after the other. *)
Definition receive (st : State) (texts : list (Z * string)) : State :=
  foldl (fun s text => processAudioChunk_resume text.1 (Content text.2) s) st texts.

End Legacy.

(** ** Scenarios *)

Definition sampleResponse : string :=
  "TRANSCRIPTION: Tell me about yourself" ++ String newline "ANSWER: Focus on relevant experience.".

(** Twelve completed records, none of them stale. *)
Definition twelveResponses : list GeminiResponse.t :=
  (fun n : nat =>
     GeminiResponse.mk ("chunk_0_" +:+ pretty n) "What is a closure?"
                       "A function with its environment." 0.7%float 0 false false)
  <$> seq 1 12.

(** The default settings of the enhanced component, with a level above the
    minimum. *)
Definition enhancedDefaults : Config :=
  mkConfig Enhanced "python" 2 1500 0.5%float 0.02%float.

Definition speech : list Blob.t := [Blob.mk 9000].

(** A session with chunks of 2000 ms: the first recording starts 500 ms
    after the session, the second one at the first tick of the interval of
    1600 ms; the recorders stop 1100 ms apart, both with enough audio. *)
Definition twoAdmissions : list Event :=
  [StartListening 1000; StartContinuousRecording 2000;
   RecordChunk 2500; RecordChunk 3600;
   RecorderStop 0 4500 speech; RecorderStop 0 5600 speech].

(** Four calls and two timers, with a delay of 1500 ms. *)
Definition crowdedFlushes : State :=
  let call now chunkId :=
    updateResponsesWithDelay enhancedDefaults now
      (placeholderResponse enhancedDefaults now chunkId) in
  let st := call 10000 "chunk_6000_1" initialState in
  let st := call 10100 "chunk_6100_2" st in
  let st := call 10200 "chunk_6200_3" st in
  let st := fireFlushTimer 0 11500 st in
  let st := call 11501 "chunk_7501_4" st in
  fireFlushTimer 0 11502 st.

(** The enhanced component with the audio level that the state cell starts
    with. *)
Definition quietDefaults : Config :=
  mkConfig Enhanced "python" 2 1500 0%float 0.02%float.

(** A text without any marker. *)
Definition unmarkedText : string := "I could not hear anything in this recording.".

(** A session in which one recorder is running. *)
Definition oneRecorder : list Event :=
  [StartListening 1000; StartContinuousRecording 2000; RecordChunk 2500].

(** The first of the two admitted chunks then receives its response. *)
Definition oneSettled : list Event :=
  twoAdmissions ++ [AwaitsDone 0 5700 (Content sampleResponse)].

(** Sixteen completed records, none of them stale. *)
Definition sixteenResponses : list GeminiResponse.t :=
  (fun n : nat =>
     GeminiResponse.mk ("chunk_0_" +:+ pretty n) "What is a closure?"
                       "A function with its environment." 0.7%float 0 false false)
  <$> seq 1 16.

(** A text with a transcription and no answer section. *)
Definition transcriptionOnly : string :=
  "TRANSCRIPTION: What is polymorphism in Java?".

(** One chunk is in flight and a second recorder is still running when the
    user stops listening. *)
Definition stopInFlight : list Event :=
  [StartListening 1000; StartContinuousRecording 2000;
   RecordChunk 2500; RecordChunk 3600; RecorderStop 0 4500 speech].

Example sample_parse_python :
  Parser.parseResponse Enhanced "python" sampleResponse
  = Accepted "Tell me about yourself" "Focus on relevant experience." 0.7%float.
Proof. vm_compute. reflexivity. Qed.

(** C7: on the text [TRANSCRIPTION: Tell me about yourself], a line break,
    [ANSWER: Focus on relevant experience.], the enhanced parser accepts with
    exactly that transcription and that answer, and with a confidence of at
    least 0.7, whatever the target language is. *)
Theorem sample_response_parsed (currentLanguage : string) :
  exists confidence,
    Parser.parseResponse Enhanced currentLanguage sampleResponse
    = Accepted "Tell me about yourself" "Focus on relevant experience." confidence
    /\ (0.7 <=? confidence)%float = true.
Proof.
  unfold Parser.parseResponse.
  replace (Parser.contentRejected Enhanced sampleResponse) with false
    by (vm_compute; reflexivity).
  replace (Parser.transcriptionOf Enhanced sampleResponse)
    with "Tell me about yourself"%string by (vm_compute; reflexivity).
  replace (Parser.answerOf Enhanced sampleResponse)
    with "Focus on relevant experience."%string by (vm_compute; reflexivity).
  replace (Parser.transcriptionRejected Enhanced "Tell me about yourself")
    with false by (vm_compute; reflexivity).
  eexists; split; [reflexivity|].
  unfold Parser.confidenceOf.
  destruct (includes (toLowerCase currentLanguage) "Focus on relevant experience.");
    vm_compute; reflexivity.
Qed.

(** ** Proof support *)

Arguments flushUpdater : simpl never.
Arguments removePlaceholder : simpl never.
Arguments replacePlaceholder : simpl never.
Arguments placeholderResponse : simpl never.
Arguments Parser.parseResponse : simpl never.
Arguments shouldProcess : simpl never.
Arguments pendingPromises : simpl never.
Arguments decrement : simpl never.
Arguments resolvedOf : simpl never.
Arguments waitingOf : simpl never.
Arguments settledIn : simpl never.

Ltac unfold_handlers :=
  unfold step, startListening, startContinuousRecording, recordChunk, recorderStop,
    onstop, awaitsDone, processAudioChunk_resume, tryBlock, catchBlock, finallyBlock,
    processAudioChunk_begin, fireFlushTimer, flushCallback, updateResponsesWithDelay,
    flush, stopListening, stopContinuousRecording, drainWaiters, settleWaiters,
    clearResponses, generateChunkId, log in *.

Ltac split_handlers :=
  unfold_handlers; cbn in *; repeat (case_match; cbn in *; simplify_eq); cbn in *.

(** Every property below is an invariant of [step]; this lifts one to every
    run. *)
Lemma run_invariant (cfg : Config) (P : State -> Prop) :
  (forall st e, P st -> P (step cfg st e)) ->
  forall evs st, P st -> P (run cfg evs st).
Proof.
  intros Hstep evs. induction evs as [|e evs IH]; intros st Hst; cbn; [done|].
  apply IH, Hstep, Hst.
Qed.

Lemma run_app (cfg : Config) (evs1 evs2 : list Event) (st : State) :
  run cfg (evs1 ++ evs2) st = run cfg evs2 (run cfg evs1 st).
Proof. unfold run. apply foldl_app. Qed.

(** ** The active-processing counter *)

Lemma step_count_nonneg (cfg : Config) (st : State) (e : Event) :
  0 <= activeProcessingCount st -> 0 <= activeProcessingCount (step cfg st e).
Proof. intros H. destruct e; split_handlers; unfold decrement; lia. Qed.

(** C9: the counter is never negative.  The decrement is clamped at zero
    for every previous value, so the counter is non-negative after every
    sequence of events from the initial state, and it stays so from any
    non-negative value under decrements that no increment matches. *)
Theorem activeProcessingCount_nonneg (cfg : Config) (evs : list Event) :
  0 <= activeProcessingCount (run cfg evs initialState)
  /\ (forall prev, 0 <= decrement prev)
  /\ (forall st chunkId promise,
        0 <= activeProcessingCount (finallyBlock chunkId promise st)).
Proof.
  split; [|split].
  - apply (run_invariant cfg (fun st => 0 <= activeProcessingCount st)).
    + apply step_count_nonneg.
    + done.
  - intros prev. unfold decrement. lia.
  - intros st chunkId promise. unfold finallyBlock, log, decrement. cbn. lia.
Qed.

(** ** The processing queue *)


Lemma awaitsDone_queue (cfg : Config) promise now o st :
  match suspended st !! promise with
  | Some chunkId =>
      processingQueueRef (awaitsDone cfg promise now o st)
      = delete chunkId (processingQueueRef st)
  | None => awaitsDone cfg promise now o st = st
  end.
Proof.
  unfold awaitsDone. destruct (suspended st !! promise) as [chunkId|]; [|done].
  destruct o; split_handlers; reflexivity.
Qed.




(** ** The visible list *)

Lemma flushUpdater_length responsesToAdd prev :
  (length (flushUpdater responsesToAdd prev) <= 20)%nat.
Proof. unfold flushUpdater. rewrite length_take. lia. Qed.

Lemma removePlaceholder_length chunkId prev :
  (length (removePlaceholder chunkId prev) <= length prev)%nat.
Proof. apply length_filter. Qed.

Lemma replacePlaceholder_length chunkId r prev :
  length (replacePlaceholder chunkId r prev) = length prev.
Proof. apply length_fmap. Qed.

Lemma step_responses_capacity (cfg : Config) (st : State) (e : Event) :
  (length (responses st) <= 20)%nat ->
  (length (responses (step cfg st e)) <= 20)%nat.
Proof.
  intros Hcap.
  destruct e; split_handlers;
    try rewrite replacePlaceholder_length;
    first [ exact Hcap
          | apply flushUpdater_length
          | etrans; [apply removePlaceholder_length|exact Hcap]
          | rewrite length_take; lia
          | cbn; lia ].
Qed.

(** An entry of the list before a flush is found again after the entries
    that the flush puts in front of it. *)
Lemma flushUpdater_lookup responsesToAdd prev i r :
  prev !! i = Some r ->
  (length responsesToAdd + i < 20)%nat ->
  flushUpdater responsesToAdd prev !! (length responsesToAdd + i)%nat
  = Some (if (15 <? length prev)%nat && (10 <? i)%nat
          then GeminiResponse.markStale r else r).
Proof.
  intros Hi Hlt. unfold flushUpdater.
  rewrite lookup_take_lt by lia.
  rewrite lookup_app_r by lia.
  replace (length responsesToAdd + i - length responsesToAdd)%nat with i by lia.
  destruct (15 <? length prev)%nat; cbn [andb].
  - rewrite list_lookup_imap, Hi. reflexivity.
  - exact Hi.
Qed.

(** C5 (amended): the visible list never holds more than 20 entries, after
    any sequence of events.  A flush marks entries stale only when the list
    before it holds more than 15 entries: every entry that was at an index
    above 10 before the flush and is kept by the cut to 20 is then stale
    after it, and every other kept entry is unchanged. *)
Theorem responses_capacity_and_staleness (cfg : Config) (evs : list Event) :
  (length (responses (run cfg evs initialState)) <= 20)%nat
  /\ (forall responsesToAdd prev,
        (length (flushUpdater responsesToAdd prev) <= 20)%nat)
  /\ (forall responsesToAdd prev i r,
        prev !! i = Some r ->
        (length responsesToAdd + i < 20)%nat ->
        flushUpdater responsesToAdd prev !! (length responsesToAdd + i)%nat
        = Some (if (15 <? length prev)%nat && (10 <? i)%nat
                then GeminiResponse.markStale r else r)).
Proof.
  split; [|split].
  - apply (run_invariant cfg (fun st => (length (responses st) <= 20)%nat)).
    + apply step_responses_capacity.
    + cbn. lia.
  - apply flushUpdater_length.
  - apply flushUpdater_lookup.
Qed.

(** C5 (as stated) fails: a list of 12 entries has grown past 10, and the
    next flush, which adds one placeholder, marks none of its entries stale,
    not even those beyond index 10. *)
Lemma stale_marking_counterexample :
  let after := flushUpdater [GeminiResponse.mk "chunk_0_13" "Analyzing audio..."
                               "Processing your question..." 0%float 0 true false]
                            twelveResponses in
  length twelveResponses = 12%nat
  /\ length after = 13%nat
  /\ forallb (fun r => negb (GeminiResponse.isStale r)) after = true
  /\ ~ (forall i r, (10 < i)%nat -> after !! i = Some r ->
                    GeminiResponse.isStale r = true).
Proof.
  split; [reflexivity|]. split; [reflexivity|]. split; [reflexivity|].
  intros H. specialize (H 11%nat _ ltac:(lia) eq_refl). discriminate H.
Qed.

(** ** The parser *)

Lemma trimEnd_empty_blank s : trimEnd s = EmptyString -> blank s = true.
Proof.
  induction s as [|c s IH]; cbn; [done|].
  destruct (trimEnd s); [|discriminate].
  destruct (isSpace c); [|discriminate]. intros _. by apply IH.
Qed.

Lemma skipSpaces_blank s : blank (skipSpaces s) = true -> blank s = true.
Proof.
  induction s as [|c s IH]; cbn; [done|].
  destruct (isSpace c) eqn:Hc; cbn; [exact IH|]. by rewrite Hc.
Qed.

Lemma trim_empty_blank s : trim s = EmptyString -> blank s = true.
Proof. intros H. by apply skipSpaces_blank, trimEnd_empty_blank. Qed.

Lemma afterFirst_blank a marker s rest :
  afterFirst (String a marker) s = Some rest -> blank s = true -> isSpace a = true.
Proof.
  induction s as [|b s IH]; cbn; [done|].
  destruct (Ascii.eqb a b && startsWith marker s) eqn:Hhere.
  - intros _ Hblank. apply andb_prop in Hhere as [Hab _].
    apply Ascii.eqb_eq in Hab. subst b. by apply andb_prop in Hblank as [? _].
  - intros Hrest Hblank. apply andb_prop in Hblank as [_ Hblank]. by apply IH.
Qed.

Lemma includes_false_afterFirst marker s :
  includes marker s = false -> afterFirst marker s = None.
Proof.
  induction s as [|b s IH]; cbn.
  - rewrite orb_false_r. by intros ->.
  - intros H. apply orb_false_elim in H as [-> H]. by apply IH.
Qed.

(** A text in which the enhanced parser finds a transcription has more in
    it than white space. *)
Lemma passesQualityChecks_trim content :
  Parser.passesQualityChecks content = true -> trim content <> EmptyString.
Proof.
  unfold Parser.passesQualityChecks. intros H.
  apply andb_prop in H as [_ H]. apply negb_true_iff in H.
  intros Hempty. apply trim_empty_blank in Hempty.
  unfold Parser.transcriptionOf, Parser.transcriptionMatch in H.
  destruct (afterFirst "TRANSCRIPTION:" content) as [rest|] eqn:Hmarker.
  - apply afterFirst_blank in Hmarker; [|exact Hempty]. discriminate Hmarker.
  - cbn in H. discriminate H.
Qed.

(** C10: a text that passes both quality checks of the enhanced parser is
    accepted, and the accepted answer is never empty; when the text has no
    [ANSWER:] marker, the answer is the whole trimmed text. *)
Theorem answer_falls_back_to_content (currentLanguage content : string) :
  Parser.passesQualityChecks content = true ->
  (exists confidence,
     Parser.parseResponse Enhanced currentLanguage content
     = Accepted (Parser.transcriptionOf Enhanced content)
                (Parser.answerOf Enhanced content) confidence)
  /\ Parser.answerOf Enhanced content <> EmptyString
  /\ (includes "ANSWER:" content = false ->
      Parser.answerOf Enhanced content = trim content).
Proof.
  intros Hpass. pose proof (passesQualityChecks_trim content Hpass) as Htrim.
  split; [|split].
  - unfold Parser.passesQualityChecks in Hpass.
    apply andb_prop in Hpass as [H1 H2].
    apply negb_true_iff in H1. apply negb_true_iff in H2.
    unfold Parser.parseResponse. rewrite H1, H2. by eexists.
  - unfold Parser.answerOf, Parser.captureOr.
    destruct (Parser.answerMatch content) as [captured|]; [|exact Htrim].
    destruct (trim captured); [exact Htrim|done].
  - intros Hno. unfold Parser.answerOf, Parser.answerMatch.
    by rewrite (includes_false_afterFirst _ _ Hno).
Qed.

(** ** Rejection of the sentinel *)




(** ** Registration and release of queue entries *)

Lemma requests_app tr1 tr2 : requests (tr1 ++ tr2) = requests tr1 ++ requests tr2.
Proof. apply List.filter_app. Qed.

Lemma requests_AllCompleted (ws : list (nat * gset nat)) :
  requests ((fun w => AllCompleted w.1) <$> ws) = [].
Proof. induction ws as [|w ws IH]; [done|exact IH]. Qed.

Lemma requests_In e tr : isRequest e = true -> In e tr <-> In e (requests tr).
Proof. intros He. unfold requests. rewrite List.filter_In. tauto. Qed.

Lemma requests_count e tr :
  isRequest e = true ->
  count_occ Effect_eq_dec (requests tr) e = count_occ Effect_eq_dec tr e.
Proof.
  intros He. induction tr as [|x tr IH]; [done|]. unfold requests in *. cbn.
  destruct (isRequest x) eqn:Hx; cbn; destruct (Effect_eq_dec x e); subst;
    rewrite ?IH; congruence.
Qed.

Ltac frame_requests :=
  split_handlers;
  repeat first [ rewrite requests_app | rewrite requests_AllCompleted ];
  cbn; rewrite ?app_nil_r; try done.

Lemma shouldProcess_enhanced_size (cfg : Config) audioBlob st :
  variant cfg = Enhanced -> shouldProcess cfg audioBlob st = true ->
  8000 < Blob.size audioBlob.
Proof.
  unfold shouldProcess. intros ->. intros H.
  repeat (apply andb_prop in H as [H ?]). lia.
Qed.

Lemma onstop_request_step (cfg : Config) now chunkId chunks st0 st :
  suspended st = suspended st0 -> nextPromise st = nextPromise st0 ->
  requests (trace st) = requests (trace st0) ->
  RequestStep st0 (onstop cfg now chunkId chunks st).
Proof.
  intros Hs Hn Ht. unfold onstop. case_match; [|by apply request_none].
  destruct (shouldProcess cfg (blobOf chunks) st) eqn:Hadmit;
    [|by apply request_none].
  destruct (variant cfg) eqn:Hv.
  - apply (request_admit _ _ chunkId); rewrite <- ?Hs, <- ?Hn, <- ?Ht;
      unfold processAudioChunk_begin; rewrite Hv; frame_requests.
  - pose proof (shouldProcess_enhanced_size cfg _ _ Hv Hadmit) as Hsize.
    apply (request_admit _ _ chunkId); rewrite <- ?Hs, <- ?Hn, <- ?Ht;
      unfold processAudioChunk_begin; rewrite Hv;
      (destruct (Blob.size (blobOf chunks) <? 5000) eqn:Hsmall; [lia|]);
      frame_requests.
Qed.

Lemma step_request_step (cfg : Config) (st : State) (e : Event) :
  RequestStep st (step cfg st e).
Proof.
  destruct e; cbn [step].
  - apply request_none; frame_requests.
  - apply request_none; frame_requests.
  - apply request_none; frame_requests.
  - unfold recorderStop. destruct (recorders st !! k) as [chunkId|];
      [|by apply request_none].
    by apply onstop_request_step.
  - unfold awaitsDone. destruct (suspended st !! promise) as [chunkId|] eqn:Hsusp;
      [|by apply request_none].
    apply (request_settle _ _ promise chunkId); [exact Hsusp|..];
      destruct o; frame_requests.
  - apply request_none; frame_requests.
  - apply request_none; frame_requests.
  - apply request_none; frame_requests.
Qed.

Ltac case_effect_eq H :=
  match goal with
  | |- context [Effect_eq_dec ?a ?b] => destruct (Effect_eq_dec a b) as [H|H]
  end.

Lemma RequestsInv_initial : RequestsInv initialState.
Proof. split; cbn; intros; try done. Qed.

Lemma RequestsInv_step (st st' : State) :
  RequestStep st st' -> RequestsInv st -> RequestsInv st'.
Proof.
  intros Hstep [Hsusp Hreg Hrel Hcount].
  destruct Hstep as [Hs Hn Ht | c0 Hs Hn Ht | p0 c0 Hp0 Hs Hn Ht];
    split; rewrite ?Hs, ?Hn, ?Ht.
  - exact Hsusp.
  - exact Hreg.
  - exact Hrel.
  - exact Hcount.
  - intros p c. destruct (decide (p = nextPromise st)) as [->|Hne]; [lia|].
    rewrite lookup_insert_ne by done. intros H. apply Hsusp in H. lia.
  - intros p c [H|[H|[]]]%in_app_or; [apply Hreg in H; lia|]. injection H as _ <-. lia.
  - intros p c [H|[H|[]]]%in_app_or; [|discriminate H].
    destruct (Hrel _ _ H) as [Hlt Hnone]. split; [lia|].
    rewrite lookup_insert_ne by lia. exact Hnone.
  - intros p c [H|[H|[]]]%in_app_or.
    + pose proof (Hreg _ _ H) as Hlt. rewrite lookup_insert_ne by lia.
      specialize (Hcount _ _ H). destruct (suspended st !! p); [exact Hcount|].
      rewrite count_occ_app. cbn [count_occ].
      case_effect_eq Heq; [discriminate|lia].
    + injection H as <- <-. by rewrite lookup_insert_eq.
  - intros p c. destruct (decide (p = p0)) as [->|Hne].
    + by rewrite lookup_delete_eq.
    + rewrite lookup_delete_ne by done. apply Hsusp.
  - intros p c [H|[H|[]]]%in_app_or; [by apply Hreg in H|discriminate H].
  - intros p c [H|[H|[]]]%in_app_or.
    + destruct (Hrel _ _ H) as [Hlt Hnone]. split; [exact Hlt|].
      destruct (decide (p = p0)) as [->|Hne];
        [apply lookup_delete_eq|by rewrite lookup_delete_ne].
    + injection H as <- <-. split; [by eapply Hsusp|apply lookup_delete_eq].
  - intros p c [H|[H|[]]]%in_app_or; [|discriminate H].
    specialize (Hcount _ _ H). rewrite count_occ_app. cbn [count_occ].
    destruct (decide (p = p0)) as [->|Hne].
    + rewrite lookup_delete_eq. rewrite Hp0 in Hcount. subst c0.
      case_effect_eq Heq; [|done].
      destruct (count_occ Effect_eq_dec (requests (trace st)) (Released c p0))
        eqn:Hzero; [done|].
      assert (Hin : In (Released c p0) (requests (trace st))).
      { apply (count_occ_In Effect_eq_dec). lia. }
      apply Hrel in Hin as [_ Hnone]. congruence.
    + rewrite lookup_delete_ne by done.
      destruct (suspended st !! p); [exact Hcount|].
      case_effect_eq Heq; [injection Heq as _ ->; done|lia].
Qed.

Lemma RequestsInv_run (cfg : Config) (evs : list Event) :
  RequestsInv (run cfg evs initialState).
Proof.
  apply (run_invariant cfg RequestsInv); [|exact RequestsInv_initial].
  intros st e. apply RequestsInv_step, step_request_step.
Qed.

Lemma awaitsDone_suspended (cfg : Config) promise now o st chunkId :
  suspended st !! promise = Some chunkId ->
  suspended (awaitsDone cfg promise now o st) = delete promise (suspended st).
Proof.
  intros Hsusp. unfold awaitsDone. rewrite Hsusp.
  destruct o; split_handlers; reflexivity.
Qed.

Lemma awaitsDone_trace_incl (cfg : Config) promise now o st e :
  In e (trace st) -> In e (trace (awaitsDone cfg promise now o st)).
Proof.
  intros Hin. unfold awaitsDone.
  destruct (suspended st !! promise) as [chunkId|]; [|exact Hin].
  destruct o; split_handlers; repeat (apply in_or_app; left); exact Hin.
Qed.

Lemma released_count (st : State) (chunkId : string) (promise : nat) :
  RequestsInv st ->
  In (Registered chunkId promise) (trace st) ->
  count_occ Effect_eq_dec (trace st) (Released chunkId promise)
  = match suspended st !! promise with Some _ => 0%nat | None => 1%nat end.
Proof.
  intros Hs Hreg. apply requests_In in Hreg; [|done].
  rewrite <- requests_count by done.
  pose proof (inv_registered st Hs _ _ Hreg) as H.
  destruct (suspended st !! promise) eqn:Hsusp; [|exact H].
  destruct (count_occ Effect_eq_dec (requests (trace st)) (Released chunkId promise))
    eqn:Hzero; [done|].
  assert (Hrel : In (Released chunkId promise) (requests (trace st))).
  { apply (count_occ_In Effect_eq_dec). lia. }
  apply (inv_released st Hs) in Hrel as [_ Hnone]. congruence.
Qed.

Lemma resume_releases_once (cfg : Config) (st : State) (chunkId : string)
    (promise : nat) (now : Z) (o : Outcome) :
  RequestsInv st ->
  In (Registered chunkId promise) (trace st) ->
  suspended st !! promise = Some chunkId ->
  let st' := awaitsDone cfg promise now o st in
  count_occ Effect_eq_dec (trace st') (Released chunkId promise) = 1%nat
  /\ processingQueueRef st' !! chunkId = None
  /\ suspended st' !! promise = None
  /\ (forall now' o', awaitsDone cfg promise now' o' st' = st').
Proof.
  intros Hinv Hin Hsusp st'.
  assert (Hnone : suspended st' !! promise = None).
  { subst st'. rewrite (awaitsDone_suspended _ _ _ _ _ _ Hsusp).
    apply lookup_delete_eq. }
  assert (Hinv' : RequestsInv st').
  { apply (RequestsInv_step st); [|exact Hinv].
    apply (step_request_step cfg st (AwaitsDone promise now o)). }
  split; [|split; [|split]].
  - rewrite (released_count st' _ _ Hinv'), Hnone; [done|].
    by apply awaitsDone_trace_incl.
  - pose proof (awaitsDone_queue cfg promise now o st) as H.
    rewrite Hsusp in H. subst st'. rewrite H. apply lookup_delete_eq.
  - exact Hnone.
  - intros now' o'. unfold awaitsDone at 1. by rewrite Hnone.
Qed.

(** C2: after any sequence of events, an entry that was registered for the
    chunk [chunkId] with the promise [promise] has been released exactly
    once when the call is no longer suspended, and not yet while it is; and
    a call that resumes releases its entry once whatever the outcome is: the
    entry is then absent from the queue and the call cannot resume again. *)
Theorem release_exactly_once (cfg : Config) (evs : list Event)
    (chunkId : string) (promise : nat) :
  let st := run cfg evs initialState in
  In (Registered chunkId promise) (trace st) ->
  count_occ Effect_eq_dec (trace st) (Released chunkId promise)
  = match suspended st !! promise with Some _ => 0%nat | None => 1%nat end
  /\ (forall now o,
        suspended st !! promise = Some chunkId ->
        let st' := awaitsDone cfg promise now o st in
        count_occ Effect_eq_dec (trace st') (Released chunkId promise) = 1%nat
        /\ processingQueueRef st' !! chunkId = None
        /\ suspended st' !! promise = None
        /\ (forall now' o', awaitsDone cfg promise now' o' st' = st')).
Proof.
  intros st Hin.
  pose proof (RequestsInv_run cfg evs) as Hinv. fold st in Hinv.
  clearbody st. split.
  - by apply released_count.
  - intros now o Hsusp. by apply resume_releases_once.
Qed.

(** ** Placeholder insertion in the enhanced component *)

Lemma updateResponsesWithDelay_cases (cfg : Config) now newResponse st :
  let st' := updateResponsesWithDelay cfg now newResponse st in
  if responseUpdateDelay cfg <=? now - lastResponseTimeRef st
  then responses st'
       = flushUpdater (pendingResponsesRef st ++ [newResponse]) (responses st)
       /\ pendingResponsesRef st' = []
       /\ flushTimers st' = flushTimers st
  else responses st' = responses st
       /\ pendingResponsesRef st' = pendingResponsesRef st ++ [newResponse]
       /\ flushTimers st'
          = flushTimers st ++ [lastResponseTimeRef st + responseUpdateDelay cfg].
Proof.
  unfold updateResponsesWithDelay. cbn.
  destruct (responseUpdateDelay cfg <=? now - lastResponseTimeRef st); cbn.
  - done.
  - repeat split. do 2 f_equal. lia.
Qed.

(** C4 (amended): in the enhanced component the placeholder of an admitted
    chunk is handed to [updateResponsesWithDelay].  It enters the visible
    list within the admission only when at least [responseUpdateDelay]
    milliseconds have passed since the last flush; otherwise the list is
    unchanged, the placeholder waits in the buffer, and a timer is armed for
    [responseUpdateDelay] after the last flush. *)
Theorem placeholder_is_staggered (cfg : Config) (st : State) (now : Z)
    (audioBlob : Blob.t) (chunkId : string) :
  variant cfg = Enhanced ->
  5000 <= Blob.size audioBlob ->
  let st' := (processAudioChunk_begin cfg now audioBlob chunkId st).2 in
  let placeholder := placeholderResponse cfg now chunkId in
  if responseUpdateDelay cfg <=? now - lastResponseTimeRef st
  then responses st'
       = flushUpdater (pendingResponsesRef st ++ [placeholder]) (responses st)
       /\ pendingResponsesRef st' = []
       /\ flushTimers st' = flushTimers st
  else responses st' = responses st
       /\ pendingResponsesRef st' = pendingResponsesRef st ++ [placeholder]
       /\ flushTimers st'
          = flushTimers st ++ [lastResponseTimeRef st + responseUpdateDelay cfg].
Proof.
  intros Hv Hsize. unfold processAudioChunk_begin. rewrite Hv.
  destruct (Blob.size audioBlob <? 5000) eqn:Hsmall; [lia|]. cbn [snd].
  exact (updateResponsesWithDelay_cases cfg now (placeholderResponse cfg now chunkId)
           (set_activeProcessingCount
              (activeProcessingCount (set_nextPromise (S (nextPromise st)) st) + 1)
              (set_nextPromise (S (nextPromise st)) st))).
Qed.

(** C4 (as stated) fails: the second of two chunks admitted 1100 ms apart is
    registered in the queue while its placeholder is not in the visible
    list; it waits in the buffer for a timer due at 6000.  The completion of
    the first chunk, 100 ms later, changes the visible list at once, without
    a flush and without a timer. *)
Lemma placeholder_not_synchronous :
  let st := run enhancedDefaults twoAdmissions initialState in
  let st' := awaitsDone enhancedDefaults 0 5700 (Content sampleResponse) st in
  In (Registered "chunk_3600_2" 1) (trace st)
  /\ GeminiResponse.id <$> responses st = ["chunk_2500_1"]
  /\ GeminiResponse.id <$> pendingResponsesRef st = ["chunk_3600_2"]
  /\ flushTimers st = [6000]
  /\ GeminiResponse.answer <$> responses st' = ["Focus on relevant experience."]
  /\ GeminiResponse.isProcessing <$> responses st' = [false]
  /\ List.filter (fun e => match e with Flushed _ => true | _ => false end) (trace st')
     = [Flushed 4500]
  /\ flushTimers st' = [6000].
Proof. vm_compute. intuition. Qed.

(** ** Spacing of flushes *)

(** A call that buffers arms its timer for a wait that is positive and, when
    the clock has not gone back behind the last flush, at most
    [responseUpdateDelay]. *)
Lemma updateResponsesWithDelay_wait (cfg : Config) now newResponse st :
  lastResponseTimeRef st <= now ->
  now - lastResponseTimeRef st < responseUpdateDelay cfg ->
  exists due,
    flushTimers (updateResponsesWithDelay cfg now newResponse st)
    = flushTimers st ++ [due]
    /\ now < due <= now + responseUpdateDelay cfg.
Proof.
  intros Hmono Hearly.
  pose proof (updateResponsesWithDelay_cases cfg now newResponse st) as H.
  cbn zeta in H.
  destruct (responseUpdateDelay cfg <=? now - lastResponseTimeRef st) eqn:Hcmp; [lia|].
  destruct H as (_ & _ & ->). eexists. split; [reflexivity|]. lia.
Qed.

(** C3 fails on the code: the calls at 10100 and 10200 each arm a timer due
    at 11500; the first one flushes at 11500; a call at 11501 buffers a
    response; the second timer, which fires at 11502, finds the buffer
    non-empty and flushes again, 2 ms after the previous flush. *)
Theorem flushes_closer_than_delay :
  trace crowdedFlushes = [Flushed 10000; Flushed 11500; Flushed 11502]
  /\ 11502 - 11500 < responseUpdateDelay enhancedDefaults
  /\ flushTimers crowdedFlushes = [13000].
Proof. vm_compute. done. Qed.

(** ** Stopping *)

Lemma stops_app tr1 tr2 : stops (tr1 ++ tr2) = stops tr1 ++ stops tr2.
Proof. apply List.filter_app. Qed.

Lemma stops_completions ws : stops (completions ws) = completions ws.
Proof. induction ws as [|w ws IH]; [done|]. cbn. by rewrite <- IH at 2. Qed.

Lemma stops_In e tr : isStopEffect e = true -> In e tr <-> In e (stops tr).
Proof. intros He. unfold stops. rewrite List.filter_In. tauto. Qed.

Lemma completions_In e ws :
  In e (completions ws) <-> exists k W, e = AllCompleted k /\ (k, W) ∈ ws.
Proof.
  unfold completions. rewrite <- list_elem_of_In, list_elem_of_fmap. split.
  - intros [[k W] [-> Hw]]. by exists k, W.
  - intros (k & W & -> & Hw). by exists (k, W).
Qed.

Lemma elem_of_settledIn promise ws k W' :
  (k, W') ∈ settledIn promise ws <-> exists W, (k, W) ∈ ws /\ W' = W ∖ {[promise]}.
Proof.
  unfold settledIn. rewrite list_elem_of_fmap. split.
  - intros [[k0 W] [Heq Hw]]. cbn in Heq. injection Heq as -> ->. by exists W.
  - intros (W & Hw & ->). by exists (k, W).
Qed.

Lemma elem_of_waitingOf ws w : w ∈ waitingOf ws <-> w.2 <> ∅ /\ w ∈ ws.
Proof. unfold waitingOf. by rewrite list_elem_of_filter. Qed.

Lemma elem_of_resolvedOf ws w : w ∈ resolvedOf ws <-> w.2 = ∅ /\ w ∈ ws.
Proof. unfold resolvedOf. by rewrite list_elem_of_filter. Qed.

Ltac frame_stops :=
  split_handlers; fold completions;
  repeat first [ rewrite stops_app | rewrite stops_completions ];
  cbn; rewrite ?app_nil_r; try done.

Lemma onstop_stop_step (cfg : Config) now chunkId chunks st0 st :
  suspended st = suspended st0 -> nextPromise st = nextPromise st0 ->
  stopWaiters st = stopWaiters st0 -> nextStop st = nextStop st0 ->
  stops (trace st) = stops (trace st0) ->
  StopStep st0 (onstop cfg now chunkId chunks st).
Proof.
  intros Hs Hn Hw Hk Ht. unfold onstop. case_match; [|by apply stop_none].
  destruct (shouldProcess cfg (blobOf chunks) st) eqn:Hadmit;
    [|by apply stop_none].
  destruct (variant cfg) eqn:Hv.
  - apply (stop_admit _ _ chunkId); rewrite <- ?Hs, <- ?Hn, <- ?Hw, <- ?Hk, <- ?Ht;
      unfold processAudioChunk_begin; rewrite Hv; frame_stops.
  - pose proof (shouldProcess_enhanced_size cfg _ _ Hv Hadmit) as Hsize.
    apply (stop_admit _ _ chunkId); rewrite <- ?Hs, <- ?Hn, <- ?Hw, <- ?Hk, <- ?Ht;
      unfold processAudioChunk_begin; rewrite Hv;
      (destruct (Blob.size (blobOf chunks) <? 5000) eqn:Hsmall; [lia|]);
      frame_stops.
Qed.

Lemma stopListening_waiters (cfg : Config) (st : State) :
  stopWaiters (stopListening cfg st)
  = waitingOf (stopWaiters st ++ [(nextStop st, pendingPromises st)])
  /\ nextStop (stopListening cfg st) = S (nextStop st)
  /\ stops (trace (stopListening cfg st))
     = stops (trace st)
       ++ completions (resolvedOf (stopWaiters st ++ [(nextStop st, pendingPromises st)])).
Proof. repeat split; frame_stops. Qed.

Lemma stopListening_stop_step (cfg : Config) (st : State) :
  StopStep st (stopListening cfg st).
Proof.
  apply stop_stop; [frame_stops|frame_stops|apply stopListening_waiters..].
Qed.

Lemma step_stop_step (cfg : Config) (st : State) (e : Event) :
  StopStep st (step cfg st e).
Proof.
  destruct e; cbn [step].
  - apply stop_none; frame_stops.
  - apply stop_none; frame_stops.
  - apply stop_none; frame_stops.
  - unfold recorderStop. destruct (recorders st !! k) as [chunkId|];
      [|by apply stop_none].
    by apply onstop_stop_step.
  - unfold awaitsDone. destruct (suspended st !! promise) as [chunkId|] eqn:Hsusp;
      [|by apply stop_none].
    apply (stop_settle _ _ promise chunkId); [exact Hsusp|..];
      destruct o; frame_stops; by rewrite <- app_assoc.
  - apply stop_none; frame_stops.
  - apply stopListening_stop_step.
  - apply stop_none; frame_stops.
Qed.

Lemma StopInv_initial : StopInv initialState.
Proof.
  split; cbn; intros; try done.
  by apply elem_of_nil in H.
Qed.

Lemma StopInv_step (st st' : State) :
  StopStep st st' -> StopInv st -> StopInv st'.
Proof.
  intros Hstep [Hsusp Hset Hwait Hdone].
  destruct Hstep as [Hs Hn Hw Hk Ht | c0 Hs Hn Hw Hk Ht
                    | p0 c0 Hp0 Hs Hn Hw Hk Ht | Hs Hn Hw Hk Ht];
    split; rewrite ?Hs, ?Hn, ?Hw, ?Hk, ?Ht.
  - exact Hsusp.
  - exact Hset.
  - exact Hwait.
  - exact Hdone.
  - intros p c. destruct (decide (p = nextPromise st)) as [->|Hne]; [lia|].
    rewrite lookup_insert_ne by done. intros H. apply Hsusp in H. lia.
  - intros p H. destruct (Hset _ H) as [Hlt Hnone]. split; [lia|].
    by rewrite lookup_insert_ne by lia.
  - exact Hwait.
  - exact Hdone.
  - intros p c. destruct (decide (p = p0)) as [->|Hne].
    + by rewrite lookup_delete_eq.
    + rewrite lookup_delete_ne by done. apply Hsusp.
  - intros p [H|[H|H]]%in_app_or.
    + destruct (Hset _ H) as [Hlt Hnone]. split; [exact Hlt|].
      destruct (decide (p = p0)) as [->|Hne];
        [apply lookup_delete_eq|by rewrite lookup_delete_ne].
    + injection H as <-. split; [by eapply Hsusp|apply lookup_delete_eq].
    + apply completions_In in H as (k & W & Heq & _). discriminate Heq.
  - intros k W [_ (W0 & Hin & _)%elem_of_settledIn]%elem_of_waitingOf.
    by eapply Hwait.
  - intros k [H|[H|H]]%in_app_or; [by apply Hdone|discriminate H|].
    apply completions_In in H as (k' & W & Heq & Hin). injection Heq as <-.
    apply elem_of_resolvedOf in Hin as [_ (W0 & Hin & _)%elem_of_settledIn].
    by eapply Hwait.
  - exact Hsusp.
  - intros p [H|H]%in_app_or; [by apply Hset|].
    apply completions_In in H as (k & W & Heq & _). discriminate Heq.
  - intros k W [_ [Hin|Hin]%elem_of_app]%elem_of_waitingOf.
    + apply Hwait in Hin. lia.
    + apply list_elem_of_singleton in Hin. injection Hin as -> _. lia.
  - intros k [H|H]%in_app_or; [apply Hdone in H; lia|].
    apply completions_In in H as (k' & W & Heq & Hin). injection Heq as <-.
    apply elem_of_resolvedOf in Hin as [_ [Hin|Hin]%elem_of_app].
    + apply Hwait in Hin. lia.
    + apply list_elem_of_singleton in Hin. injection Hin as -> _. lia.
Qed.

Lemma StopInv_run (cfg : Config) (evs : list Event) :
  StopInv (run cfg evs initialState).
Proof.
  apply (run_invariant cfg StopInv); [|exact StopInv_initial].
  intros st e. apply StopInv_step, (step_stop_step cfg).
Qed.

Lemma AfterStop_stop (cfg : Config) (st : State) :
  StopInv st ->
  AfterStop (nextStop st) (pendingPromises st) (stopListening cfg st).
Proof.
  intros Hinv.
  pose proof (StopInv_step _ _ (stopListening_stop_step cfg st) Hinv) as Hinv'.
  destruct (stopListening_waiters cfg st) as (Hw & Hk & Ht).
  split; [exact Hinv'|lia|..].
  - rewrite Hw. intros W [_ [Hin|Hin]%elem_of_app]%elem_of_waitingOf.
    + apply (si_waiters _ Hinv) in Hin. lia.
    + apply list_elem_of_singleton in Hin. injection Hin as ->. done.
  - rewrite Ht. intros [H|H]%in_app_or.
    + apply (si_completed _ Hinv) in H. lia.
    + apply completions_In in H as (k' & W & Heq & Hin). injection Heq as <-.
      apply elem_of_resolvedOf in Hin as [Hempty [Hin|Hin]%elem_of_app].
      * apply (si_waiters _ Hinv) in Hin. lia.
      * apply list_elem_of_singleton in Hin. injection Hin as ->.
        cbn in Hempty. intros p Hp. rewrite Hempty in Hp. set_solver.
Qed.

Lemma AfterStop_step k0 W0 (st st' : State) :
  StopStep st st' -> AfterStop k0 W0 st -> AfterStop k0 W0 st'.
Proof.
  intros Hstep [Hinv Hnum Hwaiting Hcompleted].
  pose proof (StopInv_step _ _ Hstep Hinv) as Hinv'.
  destruct Hstep as [Hs Hn Hw Hk Ht | c0 Hs Hn Hw Hk Ht
                    | p0 c0 Hp0 Hs Hn Hw Hk Ht | Hs Hn Hw Hk Ht];
    (split; [exact Hinv'|lia|..]); rewrite ?Hw, ?Ht.
  - exact Hwaiting.
  - exact Hcompleted.
  - exact Hwaiting.
  - exact Hcompleted.
  - intros W' [_ (W & Hin & ->)%elem_of_settledIn]%elem_of_waitingOf p Hp Hnot.
    apply in_or_app. destruct (decide (p = p0)) as [->|Hne]; [right; by left|].
    left. apply (Hwaiting W Hin p Hp). set_solver.
  - intros [H|[H|H]]%in_app_or p Hp; [|discriminate H|].
    + apply in_or_app. left. by apply Hcompleted.
    + apply completions_In in H as (k' & W' & Heq & Hin). injection Heq as <-.
      apply elem_of_resolvedOf in Hin as [Hempty (W & Hin & ->)%elem_of_settledIn].
      cbn in Hempty. apply in_or_app.
      destruct (decide (p = p0)) as [->|Hne]; [right; by left|].
      left. apply (Hwaiting W Hin p Hp). set_solver.
  - intros W [_ [Hin|Hin]%elem_of_app]%elem_of_waitingOf p Hp Hnot.
    + apply in_or_app. left. by apply (Hwaiting W).
    + apply list_elem_of_singleton in Hin. injection Hin as Heq _. lia.
  - intros [H|H]%in_app_or p Hp; apply in_or_app; left.
    + by apply Hcompleted.
    + apply completions_In in H as (k' & W & Heq & Hin). injection Heq as <-.
      apply elem_of_resolvedOf in Hin as [Hempty [Hin|Hin]%elem_of_app].
      * apply (Hwaiting W Hin p Hp). cbn in Hempty. rewrite Hempty. set_solver.
      * apply list_elem_of_singleton in Hin. injection Hin as Heq _. lia.
Qed.

Lemma AfterStop_run (cfg : Config) k0 W0 (evs : list Event) (st : State) :
  AfterStop k0 W0 st -> AfterStop k0 W0 (run cfg evs st).
Proof.
  apply (run_invariant cfg (AfterStop k0 W0)).
  intros s e. apply AfterStop_step, (step_stop_step cfg).
Qed.

Lemma elem_of_pendingPromises (st : State) (p : nat) :
  p ∈ pendingPromises st -> is_Some (suspended st !! p).
Proof. unfold pendingPromises. rewrite elem_of_filter. by intros [? _]. Qed.

Lemma stopListening_trace (cfg : Config) (st : State) :
  trace (stopListening cfg st)
  = trace st
    ++ (if streamRef st then [TracksStopped] else [])
    ++ (if audioContextRef st then [ContextClosed] else [])
    ++ completions (resolvedOf (stopWaiters st ++ [(nextStop st, pendingPromises st)])).
Proof.
  unfold stopListening, stopContinuousRecording, drainWaiters, log, pendingPromises.
  fold completions.
  destruct (variant cfg); cbn; destruct (streamRef st); cbn;
    destruct (audioContextRef st); cbn; rewrite <- ?app_assoc; reflexivity.
Qed.

Lemma stopListening_halts (cfg : Config) (st : State) :
  let st' := stopListening cfg st in
  continuousRecordingRef st' = false
  /\ recordingIntervalRef st' = false
  /\ streamRef st' = false
  /\ audioContextRef st' = false
  /\ processingQueueRef st' = processingQueueRef st
  /\ suspended st' = suspended st.
Proof. repeat split; split_handlers; first [reflexivity|congruence]. Qed.

Lemma recordChunk_stopped (cfg : Config) (now : Z) (st : State) :
  continuousRecordingRef st = false -> recordChunk cfg now st = st.
Proof. intros H. unfold recordChunk. by rewrite H. Qed.

(** C6 (amended): [stopListening], invoked after any history with calls in
    flight, clears the recording flag and the interval, so that no later
    [recordChunk] starts a recording; it leaves the queue and the suspended
    calls as they are; it stops the tracks and closes the audio context
    within the same step, while every awaited promise is still unsettled; and
    the completion message of this stop enters the trace only when every
    awaited promise has settled. *)
Theorem stop_releases_microphone_at_once (cfg : Config) (evs1 evs2 : list Event) :
  let st := run cfg evs1 initialState in
  let st1 := stopListening cfg st in
  let st2 := run cfg evs2 st1 in
  (continuousRecordingRef st1 = false
   /\ recordingIntervalRef st1 = false
   /\ forall now, recordChunk cfg now st1 = st1)
  /\ (processingQueueRef st1 = processingQueueRef st
      /\ suspended st1 = suspended st)
  /\ (streamRef st1 = false
      /\ audioContextRef st1 = false
      /\ trace st1
         = trace st
           ++ (if streamRef st then [TracksStopped] else [])
           ++ (if audioContextRef st then [ContextClosed] else [])
           ++ completions
                (resolvedOf (stopWaiters st ++ [(nextStop st, pendingPromises st)])))
  /\ (forall p, p ∈ pendingPromises st ->
                is_Some (suspended st1 !! p) /\ ~ In (Settled p) (trace st1))
  /\ (In (AllCompleted (nextStop st)) (trace st2) ->
      forall p, p ∈ pendingPromises st -> In (Settled p) (trace st2)).
Proof.
  intros st st1 st2.
  pose proof (StopInv_run cfg evs1) as Hinv. fold st in Hinv.
  clearbody st.
  pose proof (stopListening_halts cfg st) as (Hrec & Hint & Hstream & Hctx & Hq & Hs).
  fold st1 in Hrec, Hint, Hstream, Hctx, Hq, Hs.
  pose proof (AfterStop_stop cfg st Hinv) as Hafter. fold st1 in Hafter.
  pose proof (stopListening_trace cfg st) as Htrace. fold st1 in Htrace.
  clearbody st1.
  pose proof (AfterStop_run cfg _ _ evs2 st1 Hafter) as Hafter2. fold st2 in Hafter2.
  clearbody st2.
  split; [|split; [|split; [|split]]].
  - split; [exact Hrec|]. split; [exact Hint|].
    intros now. by apply recordChunk_stopped.
  - by split.
  - by repeat split.
  - intros p Hp. apply elem_of_pendingPromises in Hp. rewrite Hs.
    split; [exact Hp|]. intros Hin.
    apply stops_In in Hin; [|done].
    apply (si_settled _ (as_inv _ _ _ Hafter)) in Hin as [_ Hnone].
    rewrite Hs in Hnone. rewrite Hnone in Hp. by destruct Hp.
  - intros Hdone p Hp. apply stops_In; [done|].
    apply (as_completed _ _ _ Hafter2); [|exact Hp].
    by apply stops_In in Hdone.
Qed.

(** C6 (as stated) fails: with one call in flight, [stopListening] stops the
    tracks and closes the audio context in the same step, before the call
    has settled; and the recorder that was still running is admitted when it
    stops afterwards. *)
Lemma stop_does_not_wait :
  let st := run enhancedDefaults stopInFlight initialState in
  let st1 := stopListening enhancedDefaults st in
  let st2 := recorderStop enhancedDefaults 0 5600 speech st1 in
  queueLength st = 1
  /\ trace st1 = trace st ++ [TracksStopped; ContextClosed]
  /\ suspended st1 !! 0%nat = Some "chunk_2500_1"%string
  /\ ~ In (Settled 0) (trace st1)
  /\ queueLength st2 = 2
  /\ trace st2 = trace st1 ++ [Registered "chunk_3600_2" 1].
Proof. vm_compute. intuition congruence. Qed.

(** ** Instances of the theorems *)


(** The entry of the first chunk is released once when its response has
    arrived. *)
Lemma release_exactly_once_witness :
  In (Registered "chunk_2500_1" 0) (trace (run enhancedDefaults oneSettled initialState))
  /\ count_occ Effect_eq_dec (trace (run enhancedDefaults oneSettled initialState))
               (Released "chunk_2500_1" 0) = 1%nat.
Proof.
  assert (H : In (Registered "chunk_2500_1" 0)
                 (trace (run enhancedDefaults oneSettled initialState))).
  { vm_compute. right. left. reflexivity. }
  split; [exact H|].
  etransitivity;
    [exact (proj1 (release_exactly_once enhancedDefaults oneSettled "chunk_2500_1" 0 H))|].
  vm_compute. reflexivity.
Defined.

(** With sixteen entries before the flush, the entry at index 11 is stale
    after it, at index 12. *)
Lemma responses_capacity_and_staleness_witness :
  flushUpdater [placeholderResponse enhancedDefaults 0 "chunk_0_17"] sixteenResponses
    !! 12%nat
  = GeminiResponse.markStale <$> sixteenResponses !! 11%nat.
Proof.
  assert (H : sixteenResponses !! 11%nat
              = Some (GeminiResponse.mk "chunk_0_12" "What is a closure?"
                        "A function with its environment." 0.7%float 0 false false))
    by (vm_compute; reflexivity).
  etransitivity;
    [exact (proj2 (proj2 (responses_capacity_and_staleness enhancedDefaults []))
              [placeholderResponse enhancedDefaults 0 "chunk_0_17"] sixteenResponses
              11%nat _ H ltac:(cbn; lia))|].
  vm_compute. reflexivity.
Defined.

(** The second admission, 1100 ms after the first flush, buffers its
    placeholder. *)
Lemma placeholder_is_staggered_witness :
  let st := run enhancedDefaults
              [StartListening 1000; StartContinuousRecording 2000;
               RecordChunk 2500; RecordChunk 3600; RecorderStop 0 4500 speech]
              initialState in
  let st' := (processAudioChunk_begin enhancedDefaults 5600 (Blob.mk 9000)
                "chunk_3600_2" st).2 in
  variant enhancedDefaults = Enhanced
  /\ 5000 <= Blob.size (Blob.mk 9000)
  /\ responses st' = responses st
  /\ flushTimers st' = flushTimers st ++ [6000].
Proof.
  intros st st'.
  assert (Hv : variant enhancedDefaults = Enhanced) by reflexivity.
  assert (Hsize : 5000 <= Blob.size (Blob.mk 9000)) by (cbn; lia).
  split; [exact Hv|]. split; [exact Hsize|].
  pose proof (placeholder_is_staggered enhancedDefaults st 5600 (Blob.mk 9000)
                "chunk_3600_2" Hv Hsize) as H.
  cbv zeta in H. fold st' in H.
  replace (responseUpdateDelay enhancedDefaults <=? 5600 - lastResponseTimeRef st)
    with false in H by (vm_compute; reflexivity).
  destruct H as (H1 & _ & H3). split; [exact H1|exact H3].
Defined.

(** The message of the stop follows the settlement of the call that was in
    flight. *)
Lemma stop_releases_microphone_at_once_witness :
  In (AllCompleted 0)
     (trace (run enhancedDefaults [AwaitsDone 0 5800 Thrown]
               (stopListening enhancedDefaults
                  (run enhancedDefaults stopInFlight initialState))))
  /\ In (Settled 0)
        (trace (run enhancedDefaults [AwaitsDone 0 5800 Thrown]
                  (stopListening enhancedDefaults
                     (run enhancedDefaults stopInFlight initialState)))).
Proof.
  assert (H : In (AllCompleted 0)
                 (trace (run enhancedDefaults [AwaitsDone 0 5800 Thrown]
                           (stopListening enhancedDefaults
                              (run enhancedDefaults stopInFlight initialState))))).
  { vm_compute. do 6 right. left. reflexivity. }
  split; [exact H|].
  refine (proj2 (proj2 (proj2 (proj2
            (stop_releases_microphone_at_once enhancedDefaults stopInFlight
               [AwaitsDone 0 5800 Thrown])))) H 0%nat _).
  vm_compute. reflexivity.
Defined.


(** A transcription without an answer section. *)
Lemma answer_falls_back_to_content_witness :
  Parser.passesQualityChecks transcriptionOnly = true
  /\ Parser.answerOf Enhanced transcriptionOnly <> EmptyString
  /\ Parser.answerOf Enhanced transcriptionOnly = trim transcriptionOnly.
Proof.
  assert (H : Parser.passesQualityChecks transcriptionOnly = true)
    by (vm_compute; reflexivity).
  split; [exact H|].
  destruct (answer_falls_back_to_content "python" transcriptionOnly H)
    as (_ & Hne & Hfallback).
  split; [exact Hne|]. apply Hfallback. vm_compute. reflexivity.
Defined.

(** ** Further properties of the parser *)

Lemma trimEnd_idempotent s : trimEnd (trimEnd s) = trimEnd s.
Proof.
  induction s as [|c s IH]; [done|]. cbn.
  destruct (trimEnd s) as [|d r] eqn:Hr.
  - destruct (isSpace c) eqn:Hc; [done|]. cbn. by rewrite Hc.
  - cbn in IH. cbn. destruct (trimEnd r) as [|d' r'] eqn:Hr'.
    + destruct (isSpace d); [discriminate IH|]. by rewrite IH.
    + by rewrite IH.
Qed.

Lemma skipSpaces_head s :
  match skipSpaces s with
  | EmptyString => True
  | String c _ => isSpace c = false
  end.
Proof.
  induction s as [|c s IH]; [done|]. cbn.
  destruct (isSpace c) eqn:Hc; [exact IH|exact Hc].
Qed.

Lemma trimEnd_head c s :
  isSpace c = false -> exists r, trimEnd (String c s) = String c r.
Proof.
  intros Hc. cbn. destruct (trimEnd s); [|by eexists].
  rewrite Hc. by eexists.
Qed.

Lemma skipSpaces_nonspace c s : isSpace c = false -> skipSpaces (String c s) = String c s.
Proof. intros Hc. cbn. by rewrite Hc. Qed.

Lemma trim_idempotent s : trim (trim s) = trim s.
Proof.
  unfold trim. pose proof (skipSpaces_head s) as Hhead.
  destruct (skipSpaces s) as [|c u] eqn:Hs; [done|].
  destruct (trimEnd_head c u Hhead) as [r Hr]. rewrite Hr.
  rewrite (skipSpaces_nonspace c r Hhead), <- Hr. apply trimEnd_idempotent.
Qed.

Lemma captureOr_trimmed m fallback :
  trim fallback = fallback -> trim (Parser.captureOr m fallback) = Parser.captureOr m fallback.
Proof.
  intros Hf. unfold Parser.captureOr. destruct m as [captured|]; [|exact Hf].
  unfold orElse. destruct (trim captured) eqn:Hc; [exact Hf|].
  rewrite <- Hc. apply trim_idempotent.
Qed.

(** X1: the fields of an accepted record are trimmed, in both components:
    neither the transcription nor the answer starts or ends with white
    space. *)
Theorem accepted_fields_trimmed (v : Variant)
    (currentLanguage content transcription answer : string) (confidence : float) :
  Parser.parseResponse v currentLanguage content
  = Accepted transcription answer confidence ->
  trim transcription = transcription /\ trim answer = answer.
Proof.
  unfold Parser.parseResponse.
  destruct (Parser.contentRejected v content); [discriminate|].
  destruct (Parser.transcriptionRejected v (Parser.transcriptionOf v content));
    [discriminate|].
  intros H. injection H as <- <- _. split.
  - unfold Parser.transcriptionOf. apply captureOr_trimmed. by destruct v.
  - unfold Parser.answerOf. apply captureOr_trimmed.
    destruct v; [done|apply trim_idempotent].
Qed.

(** X2: the confidence of an accepted record is 0.8 in the basic component
    and lies between 0.7 and 0.95 in the enhanced one. *)
Theorem accepted_confidence_range (v : Variant)
    (currentLanguage content transcription answer : string) (confidence : float) :
  Parser.parseResponse v currentLanguage content
  = Accepted transcription answer confidence ->
  match v with
  | Basic => confidence = 0.8%float
  | Enhanced =>
      (0.7 <=? confidence)%float = true /\ (confidence <=? 0.95)%float = true
  end.
Proof.
  unfold Parser.parseResponse.
  destruct (Parser.contentRejected v content); [discriminate|].
  destruct (Parser.transcriptionRejected v (Parser.transcriptionOf v content));
    [discriminate|].
  intros H. injection H as _ _ <-. destruct v; [reflexivity|].
  unfold Parser.confidenceOf.
  destruct ((20 <? jsLength (Parser.transcriptionOf Enhanced content))
            && (30 <? jsLength (Parser.answerOf Enhanced content)));
    destruct (includes "?" (Parser.transcriptionOf Enhanced content));
    destruct (includes (toLowerCase currentLanguage) (Parser.answerOf Enhanced content));
    vm_compute; split; reflexivity.
Qed.

(** X3: a text without the [TRANSCRIPTION:] marker is rejected by the
    enhanced parser; the basic parser, when the text has no sentinel, accepts
    it with the fixed transcription [Could not transcribe audio]. *)
Theorem missing_transcription_marker (currentLanguage content : string) :
  includes "TRANSCRIPTION:" content = false ->
  Parser.parseResponse Enhanced currentLanguage content = Rejected
  /\ (includes "UNCLEAR_AUDIO" content = false ->
      Parser.parseResponse Basic currentLanguage content
      = Accepted "Could not transcribe audio" (Parser.answerOf Basic content) 0.8%float).
Proof.
  intros Hno. apply includes_false_afterFirst in Hno. split.
  - unfold Parser.parseResponse.
    destruct (Parser.contentRejected Enhanced content); [done|].
    unfold Parser.transcriptionOf, Parser.transcriptionMatch. by rewrite Hno.
  - intros Hsentinel. unfold Parser.parseResponse. cbn [Parser.contentRejected].
    rewrite Hsentinel.
    unfold Parser.transcriptionOf, Parser.transcriptionMatch. by rewrite Hno.
Qed.

(** *** Parsing a text in the requested format *)

#[local] Arguments append !_ _ : simpl nomatch.

Lemma startsWith_app_self m y : startsWith m (m +:+ y) = true.
Proof.
  induction m as [|a m IH]; cbn [startsWith append]; [done|].
  by rewrite Ascii.eqb_refl.
Qed.

Lemma dropChars_app m y : dropChars (String.length m) (m +:+ y) = y.
Proof. induction m as [|a m IH]; cbn; [by destruct y|exact IH]. Qed.

Lemma afterFirst_here m s :
  startsWith m s = true -> afterFirst m s = Some (dropChars (String.length m) s).
Proof. intros H. destruct s; cbn; by rewrite H. Qed.

Lemma startsWith_includes m s : startsWith m s = true -> includes m s = true.
Proof. intros H. destruct s; cbn; by rewrite H. Qed.

(** A marker without a line break that matches in front of a line break
    matches before it. *)
Lemma startsWith_newline m u z :
  noNewline m = true ->
  startsWith m (u +:+ String newline z) = true -> startsWith m u = true.
Proof.
  revert u. induction m as [|a m IH]; intros u Hm H; [by destruct u|].
  cbn in Hm. apply andb_prop in Hm as [Ha Hm].
  destruct u as [|b u]; cbn in *.
  - apply andb_prop in H as [H _]. by rewrite H in Ha.
  - apply andb_prop in H as [-> H]. cbn. by apply IH.
Qed.

Lemma afterFirst_app_newline a m x y :
  noNewline (String a m) = true ->
  includes (String a m) x = false ->
  afterFirst (String a m) (x +:+ String newline (String a m +:+ y)) = Some y.
Proof.
  intros Hm. induction x as [|b x IH]; intros Hx.
  - change (EmptyString +:+ String newline (String a m +:+ y))
      with (String newline (String a m +:+ y)).
    cbn [afterFirst].
    assert (Hnl : startsWith (String a m) (String newline (String a m +:+ y)) = false).
    { cbn [startsWith]. cbn in Hm. apply andb_prop in Hm as [Ha _].
      apply negb_true_iff in Ha. by rewrite Ha. }
    rewrite Hnl.
    rewrite afterFirst_here by apply startsWith_app_self.
    by rewrite dropChars_app.
  - cbn [includes] in Hx. apply orb_false_elim in Hx as [Hhere Hx].
    change (String b x +:+ String newline (String a m +:+ y))
      with (String b (x +:+ String newline (String a m +:+ y))).
    cbn [afterFirst].
    destruct (startsWith (String a m) (String b (x +:+ String newline (String a m +:+ y))))
      eqn:Hstart.
    + apply (startsWith_newline (String a m) (String b x)) in Hstart; [|exact Hm].
      congruence.
    + by apply IH.
Qed.

Lemma includes_skipSpaces m s : includes m s = false -> includes m (skipSpaces s) = false.
Proof.
  induction s as [|c s IH]; [done|]. intros H. cbn [skipSpaces].
  destruct (isSpace c); [|exact H].
  cbn [includes] in H. apply orb_false_elim in H as [_ H]. by apply IH.
Qed.

Lemma skipSpaces_app t r : blank t = false -> skipSpaces (t +:+ r) = skipSpaces t +:+ r.
Proof.
  induction t as [|c t IH]; [done|]. cbn. destruct (isSpace c); [exact IH|done].
Qed.

Lemma skipSpaces_idempotent s : skipSpaces (skipSpaces s) = skipSpaces s.
Proof.
  induction s as [|c s IH]; [done|]. cbn.
  destruct (isSpace c) eqn:Hc; [exact IH|]. cbn. by rewrite Hc.
Qed.

Lemma blank_trimEnd s : blank s = true -> trimEnd s = EmptyString.
Proof.
  induction s as [|c s IH]; [done|]. cbn. intros [Hc Hs]%andb_prop.
  by rewrite (IH Hs), Hc.
Qed.

Lemma trimEnd_cons c p s : trimEnd p = trimEnd s -> trimEnd (String c p) = trimEnd (String c s).
Proof. intros H. cbn. by rewrite H. Qed.

(** The lazy capture of either component, run on a text that is followed
    by a line break and the answer section, stops so that nothing but white
    space is lost. *)
Lemma lazyUntil_answer (v : Variant) s a :
  includes "ANSWER:" s = false ->
  trimEnd (lazyUntil (match v with
                      | Basic => Parser.aheadBasic
                      | Enhanced => Parser.aheadEnhanced
                      end)
                     (s +:+ String newline ("ANSWER: " +:+ a)))
  = trimEnd s.
Proof.
  set (R := String newline ("ANSWER: " +:+ a)).
  induction s as [|c s IH]; intros Hs.
  - destruct v; reflexivity.
  - cbn [includes] in Hs. apply orb_false_elim in Hs as [Hhere Hs].
    specialize (IH Hs).
    change (String c s +:+ R) with (String c (s +:+ R)). cbn [lazyUntil].
    destruct v.
    + assert (Hahead : Parser.aheadBasic (String c (s +:+ R)) = false).
      { unfold Parser.aheadBasic.
        destruct (startsWith "ANSWER:" (String c (s +:+ R))) eqn:Hstart; [|done].
        apply (startsWith_newline "ANSWER:" (String c s)) in Hstart; [|done].
        congruence. }
      rewrite Hahead. by apply trimEnd_cons.
    + destruct (Parser.aheadEnhanced (String c (s +:+ R))) eqn:Hahead;
        [|by apply trimEnd_cons].
      unfold Parser.aheadEnhanced in Hahead.
      apply andb_prop in Hahead as [Hc Hstart].
      apply Ascii.eqb_eq in Hc. subst c.
      destruct (blank s) eqn:Hblank.
      * symmetry. apply blank_trimEnd. cbn. by rewrite Hblank.
      * rewrite skipSpaces_app in Hstart by done.
        apply (startsWith_newline "ANSWER:") in Hstart; [|done].
        apply startsWith_includes in Hstart.
        by rewrite (includes_skipSpaces _ _ Hs) in Hstart.
Qed.

Lemma transcriptionOf_format (v : Variant) t a :
  includes "ANSWER:" t = false -> blank t = false ->
  Parser.transcriptionOf v (formatResponse t a) = trim t.
Proof.
  intros Hno Hblank.
  set (R := String newline ("ANSWER: " +:+ a)).
  assert (Hmatch : Parser.transcriptionMatch v (formatResponse t a)
                   = Some (lazyUntil (match v with
                                      | Basic => Parser.aheadBasic
                                      | Enhanced => Parser.aheadEnhanced
                                      end) (skipSpaces t +:+ R))).
  { unfold Parser.transcriptionMatch, formatResponse. fold R.
    change ("TRANSCRIPTION: " +:+ t +:+ R) with ("TRANSCRIPTION:" +:+ (" " +:+ t +:+ R)).
    rewrite afterFirst_here by apply startsWith_app_self.
    rewrite dropChars_app.
    change (skipSpaces (" " +:+ t +:+ R)) with (skipSpaces (t +:+ R)).
    by rewrite skipSpaces_app. }
  unfold Parser.transcriptionOf. rewrite Hmatch. cbn [Parser.captureOr].
  pose proof (lazyUntil_answer v (skipSpaces t) a (includes_skipSpaces _ _ Hno)) as Hlazy.
  fold R in Hlazy.
  pose proof (skipSpaces_head t) as Hhead.
  destruct (skipSpaces t) as [|c u] eqn:Hskip.
  { apply (f_equal blank) in Hskip. cbn in Hskip.
    apply skipSpaces_blank in Hskip. congruence. }
  set (p := lazyUntil _ _) in *.
  assert (Hp : exists p', p = String c p').
  { subst p. change (String c u +:+ R) with (String c (u +:+ R)). cbn [lazyUntil].
    assert (Hc : Ascii.eqb c newline = false).
    { apply Ascii.eqb_neq. intros ->. discriminate Hhead. }
    destruct v.
    - unfold Parser.aheadBasic.
      destruct (startsWith "ANSWER:" (String c (u +:+ R))) eqn:Hstart; [|by eexists].
      apply (startsWith_newline "ANSWER:" (String c u)) in Hstart; [|done].
      apply startsWith_includes in Hstart.
      pose proof (includes_skipSpaces _ _ Hno) as Hno'. rewrite Hskip in Hno'.
      congruence.
    - unfold Parser.aheadEnhanced. rewrite Hc. cbn [andb]. by eexists. }
  destruct Hp as [p' Hp].
  assert (Htrim : trim p = trim t).
  { unfold trim. rewrite Hskip, Hp, (skipSpaces_nonspace c p' Hhead), <- Hp.
    exact Hlazy. }
  rewrite Htrim. unfold orElse.
  destruct (trim t) eqn:Ht; [|done].
  unfold trim in Ht. rewrite Hskip in Ht.
  destruct (trimEnd_head c u Hhead) as [r Hr]. congruence.
Qed.

Lemma answerMatch_format t a :
  includes "ANSWER:" t = false ->
  Parser.answerMatch (formatResponse t a) = Some (skipSpaces a).
Proof.
  intros Hno. unfold Parser.answerMatch, formatResponse.
  change ("TRANSCRIPTION: " +:+ t +:+ String newline ("ANSWER: " +:+ a))
    with (("TRANSCRIPTION: " +:+ t) +:+ String newline ("ANSWER:" +:+ (" " +:+ a))).
  rewrite afterFirst_app_newline; [reflexivity|done|].
  cbn. exact Hno.
Qed.

(** X4: a text in the format that the prompt asks for is parsed back into
    its two sections by both components.  When the transcription section
    has no [ANSWER:] in it and is not blank, the extracted transcription is
    the trimmed section, and the extracted answer is the trimmed answer
    section unless that is empty. *)
Theorem format_round_trip (v : Variant) (transcription answer : string) :
  includes "ANSWER:" transcription = false ->
  blank transcription = false ->
  Parser.transcriptionOf v (formatResponse transcription answer) = trim transcription
  /\ (trim answer <> EmptyString ->
      Parser.answerOf v (formatResponse transcription answer) = trim answer).
Proof.
  intros Hno Hblank. split; [by apply transcriptionOf_format|].
  intros Hanswer. unfold Parser.answerOf. rewrite (answerMatch_format _ _ Hno).
  unfold Parser.captureOr, orElse.
  assert (Htrim : trim (skipSpaces answer) = trim answer).
  { unfold trim. by rewrite skipSpaces_idempotent. }
  rewrite Htrim. by destruct (trim answer).
Qed.

(** ** Identifiers of chunks *)

Lemma noUnderscore_pretty_N_go (x : N) (s : string) :
  noUnderscore s = true -> noUnderscore (pretty_N_go x s) = true.
Proof.
  revert s. induction (N.lt_wf_0 x) as [x _ IH]; intros s Hs.
  assert (x = 0 \/ 0 < x)%N as [->|Hpos] by lia.
  - by rewrite pretty_N_go_0.
  - rewrite pretty_N_go_step by done. apply IH; [by apply N.div_lt|].
    cbn [noUnderscore]. rewrite Hs, andb_true_r.
    unfold pretty_N_char. by repeat case_match.
Qed.

Lemma noUnderscore_pretty_N (x : N) : noUnderscore (pretty x) = true.
Proof.
  unfold pretty, pretty_N. case_decide; [done|].
  by apply noUnderscore_pretty_N_go.
Qed.

Lemma noUnderscore_pretty_Z (x : Z) : noUnderscore (pretty x) = true.
Proof.
  destruct x as [|x|x]; [done|apply (noUnderscore_pretty_N (N.pos x))|].
  unfold pretty, pretty_Z. cbn [noUnderscore append].
  change (String "-" EmptyString +:+ pretty x) with (String "-" (pretty x)).
  cbn [noUnderscore]. apply (noUnderscore_pretty_N (N.pos x)).
Qed.

(** Two texts without underscore that are each followed by an underscore
    and a rest are equal, with equal rests, when the wholes are. *)
Lemma underscore_split a a' b b' :
  noUnderscore a = true -> noUnderscore a' = true ->
  a +:+ String "_" b = a' +:+ String "_" b' -> a = a' /\ b = b'.
Proof.
  revert a'. induction a as [|c a IH]; intros [|c' a'] Ha Ha' Heq.
  - by injection Heq as ->.
  - change (String c' a' +:+ String "_" b') with (String c' (a' +:+ String "_" b')) in Heq.
    injection Heq as <- _. discriminate Ha'.
  - change (String c a +:+ String "_" b) with (String c (a +:+ String "_" b)) in Heq.
    injection Heq as -> _. discriminate Ha.
  - change (String c a +:+ String "_" b) with (String c (a +:+ String "_" b)) in Heq.
    change (String c' a' +:+ String "_" b') with (String c' (a' +:+ String "_" b')) in Heq.
    injection Heq as -> Heq.
    cbn [noUnderscore] in Ha, Ha'.
    apply andb_prop in Ha as [_ Ha]. apply andb_prop in Ha' as [_ Ha'].
    destruct (IH a' Ha Ha' Heq) as [-> ->]. done.
Qed.

Lemma chunkIdOf_inj now n now' n' :
  chunkIdOf now n = chunkIdOf now' n' -> now = now' /\ n = n'.
Proof.
  unfold chunkIdOf. intros Heq.
  assert (Heq' : pretty now +:+ String "_" (pretty n)
                 = pretty now' +:+ String "_" (pretty n')).
  { change ("chunk_" +:+ pretty now +:+ "_" +:+ pretty n)
      with (String "c" (String "h" (String "u" (String "n" (String "k" (String "_"
             (pretty now +:+ String "_" (pretty n)))))))) in Heq.
    change ("chunk_" +:+ pretty now' +:+ "_" +:+ pretty n')
      with (String "c" (String "h" (String "u" (String "n" (String "k" (String "_"
             (pretty now' +:+ String "_" (pretty n')))))))) in Heq.
    by injection Heq. }
  apply underscore_split in Heq' as [Hnow Hn]; try apply noUnderscore_pretty_Z.
  split; by apply (inj pretty).
Qed.

Lemma generateChunkId_spec now st :
  generateChunkId now st
  = (chunkIdOf now (chunkCounterRef st + 1),
     set_chunkCounterRef (chunkCounterRef st + 1) st).
Proof. reflexivity. Qed.

Lemma generatedUpTo_fresh limit now chunkId :
  generatedUpTo limit chunkId -> chunkId <> chunkIdOf now (limit + 1).
Proof.
  intros (t & n & -> & Hn) Heq. apply chunkIdOf_inj in Heq as [_ ->]. lia.
Qed.

Lemma generatedUpTo_mono limit limit' chunkId :
  limit <= limit' -> generatedUpTo limit chunkId -> generatedUpTo limit' chunkId.
Proof. intros Hle (t & n & -> & Hn). exists t, n. split; [done|lia]. Qed.

(** ** Segments in flight *)

Lemma recordChunk_flight_step (cfg : Config) now st0 st :
  recorders st = recorders st0 -> chunkCounterRef st = chunkCounterRef st0 ->
  suspended st = suspended st0 -> nextPromise st = nextPromise st0 ->
  processingQueueRef st = processingQueueRef st0 ->
  activeProcessingCount st = activeProcessingCount st0 ->
  FlightStep st0 (recordChunk cfg now st).
Proof.
  intros Hr Hc Hs Hn Hq Ha. unfold recordChunk.
  destruct (negb (continuousRecordingRef st) || negb (streamRef st));
    [by apply flight_none|].
  destruct (match variant cfg with
            | Basic => false
            | Enhanced => (audioLevel cfg <? minAudioLevel cfg)%float
            end); [by apply flight_none|].
  rewrite generateChunkId_spec.
  apply (flight_record _ _ now); cbn; congruence.
Qed.

Lemma onstop_flight_step (cfg : Config) now k chunkId chunks st0 st :
  recorders st0 !! k = Some chunkId ->
  recorders st = delete k (recorders st0) ->
  chunkCounterRef st = chunkCounterRef st0 ->
  suspended st = suspended st0 -> nextPromise st = nextPromise st0 ->
  processingQueueRef st = processingQueueRef st0 ->
  activeProcessingCount st = activeProcessingCount st0 ->
  FlightStep st0 (onstop cfg now chunkId chunks st).
Proof.
  intros Hk Hr Hc Hs Hn Hq Ha. unfold onstop.
  case_match; [|by apply (flight_drop _ _ k chunkId)].
  destruct (shouldProcess cfg (blobOf chunks) st) eqn:Hadmit;
    [|by apply (flight_drop _ _ k chunkId)].
  destruct (variant cfg) eqn:Hv.
  - apply (flight_admit _ _ k chunkId (QueueEntry.mk (blobOf chunks) now (nextPromise st0)));
      [exact Hk|reflexivity|..];
      rewrite <- ?Hr, <- ?Hc, <- ?Hs, <- ?Hn, <- ?Hq, <- ?Ha;
      unfold processAudioChunk_begin; rewrite Hv; split_handlers; done.
  - pose proof (shouldProcess_enhanced_size cfg _ _ Hv Hadmit) as Hsize.
    apply (flight_admit _ _ k chunkId (QueueEntry.mk (blobOf chunks) now (nextPromise st0)));
      [exact Hk|reflexivity|..];
      rewrite <- ?Hr, <- ?Hc, <- ?Hs, <- ?Hn, <- ?Hq, <- ?Ha;
      unfold processAudioChunk_begin; rewrite Hv;
      (destruct (Blob.size (blobOf chunks) <? 5000) eqn:Hsmall; [lia|]);
      split_handlers; done.
Qed.

Lemma FlightStep_frame (st x y : State) :
  FlightStep st x ->
  recorders y = recorders x -> chunkCounterRef y = chunkCounterRef x ->
  suspended y = suspended x -> nextPromise y = nextPromise x ->
  processingQueueRef y = processingQueueRef x ->
  activeProcessingCount y = activeProcessingCount x ->
  FlightStep st y.
Proof.
  intros Hstep Hr Hc Hs Hn Hq Ha.
  destruct Hstep as [? ? ? ? ? ?|now ? ? ? ? ? ?|k c ? ? ? ? ? ? ?
                    |k c entry ? ? ? ? ? ? ? ?|p c ? ? ? ? ? ? ?].
  - apply flight_none; congruence.
  - apply (flight_record _ _ now); congruence.
  - apply (flight_drop _ _ k c); congruence.
  - apply (flight_admit _ _ k c entry); congruence.
  - apply (flight_settle _ _ p c); congruence.
Qed.

Lemma startContinuousRecording_flight_step (cfg : Config) now st0 st :
  recorders st = recorders st0 -> chunkCounterRef st = chunkCounterRef st0 ->
  suspended st = suspended st0 -> nextPromise st = nextPromise st0 ->
  processingQueueRef st = processingQueueRef st0 ->
  activeProcessingCount st = activeProcessingCount st0 ->
  FlightStep st0 (startContinuousRecording cfg now st).
Proof.
  intros Hr Hc Hs Hn Hq Ha. unfold startContinuousRecording.
  destruct (negb (streamRef st) || continuousRecordingRef st);
    [by apply flight_none|].
  destruct (variant cfg); [|by apply flight_none].
  eapply FlightStep_frame;
    [apply (recordChunk_flight_step cfg now st0 (set_continuousRecordingRef true st));
     assumption|reflexivity..].
Qed.

Lemma step_flight_step (cfg : Config) (st : State) (e : Event) :
  FlightStep st (step cfg st e).
Proof.
  destruct e; cbn [step].
  - unfold startListening. destruct (variant cfg); [|by apply flight_none].
    by apply startContinuousRecording_flight_step.
  - by apply startContinuousRecording_flight_step.
  - by apply recordChunk_flight_step.
  - unfold recorderStop. destruct (recorders st !! k) as [chunkId|] eqn:Hk;
      [|by apply flight_none].
    by apply (onstop_flight_step cfg now k).
  - unfold awaitsDone. destruct (suspended st !! promise) as [chunkId|] eqn:Hsusp;
      [|by apply flight_none].
    apply (flight_settle _ _ promise chunkId); [exact Hsusp|..];
      destruct o; split_handlers; done.
  - apply flight_none; split_handlers; done.
  - apply flight_none; split_handlers; done.
  - apply flight_none; split_handlers; done.
Qed.

Lemma NoDup_delete_not_elem (l : list string) k c :
  NoDup l -> l !! k = Some c -> c ∉ delete k l.
Proof.
  revert k. induction l as [|x l IH]; intros k Hnd Hk; [done|].
  apply NoDup_cons in Hnd as [Hx Hnd]. destruct k as [|k]; cbn in *.
  - by injection Hk as ->.
  - apply not_elem_of_cons. split; [|by eapply IH].
    intros ->. apply Hx. by eapply list_elem_of_lookup_2.
Qed.

Lemma FlightInv_initial : FlightInv initialState.
Proof.
  split; cbn; try done.
  - intros c Hc. by apply elem_of_nil in Hc.
  - constructor.
Qed.

Lemma FlightInv_step (st st' : State) :
  FlightStep st st' -> FlightInv st -> FlightInv st'.
Proof.
  intros Hstep [Hlt Hrec Hsus Hnd Hdis Hinj Hent Hown Hcnt Hsz].
  destruct Hstep as [Hr Hc Hs Hn Hq Ha
                    |now Hr Hc Hs Hn Hq Ha
                    |k c Hk Hr Hc Hs Hn Hq Ha
                    |k c entry Hk Hp Hr Hc Hs Hn Hq Ha
                    |p c Hp Hr Hc Hs Hn Hq Ha].
  - split; rewrite ?Hr, ?Hc, ?Hs, ?Hn, ?Hq, ?Ha; assumption.
  - assert (Hfresh : chunkIdOf now (chunkCounterRef st + 1) ∉ recorders st).
    { intros Hin. by eapply generatedUpTo_fresh; [apply Hrec|]. }
    split; rewrite ?Hr, ?Hc, ?Hs, ?Hn, ?Hq, ?Ha; try assumption.
    + intros c0 [Hin| ->%list_elem_of_singleton]%elem_of_app.
      * eapply generatedUpTo_mono; [|by apply Hrec]. lia.
      * exists now, (chunkCounterRef st + 1). split; [done|lia].
    + intros p0 c0 H. eapply generatedUpTo_mono; [|by eapply Hsus]. lia.
    + apply NoDup_app. split; [exact Hnd|]. split; [|apply NoDup_singleton].
      intros x Hx ->%list_elem_of_singleton. done.
    + intros p0 c0 H [Hin| ->%list_elem_of_singleton]%elem_of_app.
      * by eapply Hdis.
      * by eapply generatedUpTo_fresh; [eapply Hsus|].
  - split; rewrite ?Hr, ?Hc, ?Hs, ?Hn, ?Hq, ?Ha; try assumption.
    + intros c0 Hin. apply Hrec. by eapply list_elem_of_delete_inv.
    + eapply sublist_NoDup; [exact Hnd|apply sublist_delete].
    + intros p0 c0 H Hin. eapply Hdis; [exact H|].
      by eapply list_elem_of_delete_inv.
  - assert (Hin : c ∈ recorders st) by (by eapply list_elem_of_lookup_2).
    assert (Hnone : suspended st !! nextPromise st = None).
    { destruct (suspended st !! nextPromise st) eqn:H; [|done].
      apply Hlt in H. lia. }
    assert (Hother : forall q c', suspended st !! q = Some c' -> c' <> c).
    { intros q c' H ->. by eapply Hdis. }
    assert (Hqnone : processingQueueRef st !! c = None).
    { destruct (processingQueueRef st !! c) eqn:H; [|done].
      apply Hown in H. by apply Hother in H. }
    split; rewrite ?Hr, ?Hc, ?Hs, ?Hn, ?Hq, ?Ha.
    + intros p0 c0 [[<- <-]|[Hne H]]%lookup_insert_Some; [lia|].
      apply Hlt in H. lia.
    + intros c0 Hc0. apply Hrec. by eapply list_elem_of_delete_inv.
    + intros p0 c0 [[<- <-]|[Hne H]]%lookup_insert_Some; [by apply Hrec|by eapply Hsus].
    + eapply sublist_NoDup; [exact Hnd|apply sublist_delete].
    + intros p0 c0 [[<- <-]|[Hne H]]%lookup_insert_Some.
      * by apply NoDup_delete_not_elem.
      * intros Hc0. eapply Hdis; [exact H|]. by eapply list_elem_of_delete_inv.
    + intros p0 q0 c0 [[<- <-]|[Hne H]]%lookup_insert_Some
                      [[<- Heq]|[Hne' H']]%lookup_insert_Some; try done.
      * by apply Hother in H'.
      * subst c0. by apply Hother in H.
      * by eapply Hinj.
    + intros p0 c0 [[<- <-]|[Hne H]]%lookup_insert_Some.
      * exists entry. by rewrite lookup_insert_eq.
      * rewrite lookup_insert_ne by (intros <-; by apply Hother in H).
        by apply Hent.
    + intros c0 e0 [[<- <-]|[Hne H]]%lookup_insert_Some.
      * by rewrite Hp, lookup_insert_eq.
      * pose proof (Hown _ _ H) as Ho. pose proof (Hlt _ _ Ho) as Hl.
        by rewrite lookup_insert_ne by lia.
    + rewrite map_size_insert_None by done. lia.
    + by rewrite !map_size_insert_None, Hsz by done.
  - destruct (Hent _ _ Hp) as (entry & Hentry & Hpromise).
    assert (Hpos : (0 < size (suspended st))%nat).
    { destruct (size (suspended st)) eqn:Hz; [|lia].
      apply map_size_empty_iff in Hz. by rewrite Hz in Hp. }
    split; rewrite ?Hr, ?Hc, ?Hs, ?Hn, ?Hq, ?Ha; try assumption.
    + intros p0 c0 [_ H]%lookup_delete_Some. by eapply Hlt.
    + intros p0 c0 [_ H]%lookup_delete_Some. by eapply Hsus.
    + intros p0 c0 [_ H]%lookup_delete_Some. by eapply Hdis.
    + intros p0 q0 c0 [_ H]%lookup_delete_Some [_ H']%lookup_delete_Some.
      by eapply Hinj.
    + intros p0 c0 [Hne H]%lookup_delete_Some.
      rewrite lookup_delete_ne; [by apply Hent|].
      intros <-. apply Hne. by eapply Hinj.
    + intros c0 e0 [Hne H]%lookup_delete_Some.
      pose proof (Hown _ _ H) as Ho.
      rewrite lookup_delete_ne; [exact Ho|].
      intros Heq. rewrite <- Heq in Ho. congruence.
    + rewrite map_size_delete_Some by done. unfold decrement. lia.
    + rewrite !map_size_delete_Some by done. by rewrite Hsz.
Qed.

Lemma FlightInv_run (cfg : Config) (evs : list Event) :
  FlightInv (run cfg evs initialState).
Proof.
  apply (run_invariant cfg FlightInv); [|exact FlightInv_initial].
  intros st e. apply FlightInv_step, (step_flight_step cfg).
Qed.

(** X5: [generateChunkId] never builds the same identifier from two
    different counter values or clock readings, and after any sequence of
    events the identifiers of the active recorders and of the calls in
    flight are pairwise distinct. *)
Theorem alive_chunk_ids_distinct (cfg : Config) (evs : list Event) :
  let st := run cfg evs initialState in
  (forall now n now' n', chunkIdOf now n = chunkIdOf now' n' -> now = now' /\ n = n')
  /\ (forall now,
        let chunkId := fst (generateChunkId now st) in
        chunkId = chunkIdOf now (chunkCounterRef st + 1)
        /\ (chunkId ∉ recorders st)
        /\ (forall p, suspended st !! p <> Some chunkId))
  /\ NoDup (recorders st)
  /\ (forall p q c, suspended st !! p = Some c -> suspended st !! q = Some c -> p = q)
  /\ (forall p c, suspended st !! p = Some c -> c ∉ recorders st).
Proof.
  intros st. pose proof (FlightInv_run cfg evs) as Hinv. fold st in Hinv.
  clearbody st. destruct Hinv as [Hlt Hrec Hsus Hnd Hdis Hinj Hent Hown Hcnt Hsz].
  split; [exact chunkIdOf_inj|]. split; [|by repeat split].
  intros now. rewrite generateChunkId_spec. cbn [fst]. split; [done|]. split.
  - intros Hin. by eapply generatedUpTo_fresh; [apply Hrec|].
  - intros p Hp. by eapply generatedUpTo_fresh; [eapply Hsus|].
Qed.

(** X6: after any sequence of events the counter of active calls, the
    number of entries in the queue and the number of suspended calls are the
    same number; the clamp of the decrement is therefore never reached. *)
Theorem active_count_is_queue_length (cfg : Config) (evs : list Event) :
  let st := run cfg evs initialState in
  activeProcessingCount st = queueLength st
  /\ queueLength st = Z.of_nat (size (suspended st))
  /\ (forall promise now o,
        is_Some (suspended st !! promise) ->
        activeProcessingCount (awaitsDone cfg promise now o st)
        = activeProcessingCount st - 1).
Proof.
  intros st. pose proof (FlightInv_run cfg evs) as Hinv. fold st in Hinv.
  pose proof (FlightInv_step st) as Hnext.
  clearbody st. unfold queueLength.
  split; [by rewrite (fi_count _ Hinv), (fi_size _ Hinv)|].
  split; [by rewrite (fi_size _ Hinv)|].
  intros promise now o [c Hc].
  specialize (Hnext _ (step_flight_step cfg st (AwaitsDone promise now o)) Hinv).
  cbn [step] in Hnext. rewrite (fi_count _ Hnext), (fi_count _ Hinv).
  rewrite (awaitsDone_suspended cfg _ now o _ _ Hc).
  rewrite map_size_delete_Some by done.
  assert ((0 < size (suspended st))%nat); [|lia].
  destruct (size (suspended st)) eqn:Hz; [|lia].
  apply map_size_empty_iff in Hz. by rewrite Hz in Hc.
Qed.

(** X7: after any sequence of events every suspended call has the queue
    entry under its chunk identifier, holding its own promise, and every
    queue entry belongs to a suspended call: no entry is stale and none was
    overwritten. *)
Theorem queue_entries_match_calls (cfg : Config) (evs : list Event) :
  let st := run cfg evs initialState in
  (forall promise chunkId,
     suspended st !! promise = Some chunkId ->
     exists entry, processingQueueRef st !! chunkId = Some entry
                   /\ QueueEntry.promise entry = promise)
  /\ (forall chunkId entry,
        processingQueueRef st !! chunkId = Some entry ->
        suspended st !! QueueEntry.promise entry = Some chunkId).
Proof.
  intros st. pose proof (FlightInv_run cfg evs) as Hinv. fold st in Hinv.
  clearbody st. split; [apply (fi_entry _ Hinv)|apply (fi_owner _ Hinv)].
Qed.

(** ** The quality gate *)

(** The least total size that is not admitted. *)
Lemma shouldProcess_false (cfg : Config) audioBlob st :
  Blob.size audioBlob <= match variant cfg with Basic => 1000 | Enhanced => 8000 end
  \/ maxConcurrentProcessing cfg <= queueLength st
  \/ (variant cfg = Enhanced /\ (minAudioLevel cfg <? audioLevel cfg)%float = false) ->
  shouldProcess cfg audioBlob st = false.
Proof.
  unfold shouldProcess. intros [Hsize|[Hfull|[Hv Hquiet]]].
  - destruct (variant cfg);
      (replace (_ <? Blob.size audioBlob) with false by (symmetry; apply Z.ltb_ge; lia));
      reflexivity.
  - replace (queueLength st <? maxConcurrentProcessing cfg) with false
      by (symmetry; apply Z.ltb_ge; lia).
    destruct (variant cfg); by rewrite ?andb_false_r.
  - rewrite Hv, Hquiet. by rewrite andb_false_r.
Qed.

Lemma recorderStop_rejected (cfg : Config) (st : State)
    (k : nat) (now : Z) (data : list Blob.t) (chunkId : string) :
  recorders st !! k = Some chunkId ->
  Blob.size (blobOf (filter (fun b => 0 < Blob.size b) data))
  <= match variant cfg with Basic => 1000 | Enhanced => 8000 end
  \/ maxConcurrentProcessing cfg <= queueLength st
  \/ (variant cfg = Enhanced /\ (minAudioLevel cfg <? audioLevel cfg)%float = false) ->
  recorderStop cfg k now data st = set_recorders (delete k (recorders st)) st.
Proof.
  intros Hk Hgate. unfold recorderStop. rewrite Hk. unfold onstop.
  destruct (0 <? length (filter (fun b => (0 < Blob.size b)%Z) data))%nat; [|reflexivity].
  rewrite shouldProcess_false; [done|].
  destruct Hgate as [?|[?|?]]; [by left|right; by left|right; by right].
Qed.

(** X8: a recorder that stops with too little audio (at most 1000 bytes in
    the basic component, 8000 in the enhanced one), or while the queue is
    full, or in the enhanced component at a level that is not above the
    minimum, is dropped without any other effect: the state is the old one
    without that recorder. *)
Theorem rejected_segment_leaves_no_trace (cfg : Config) (st : State)
    (k : nat) (now : Z) (data : list Blob.t) (chunkId : string) :
  recorders st !! k = Some chunkId ->
  Blob.size (blobOf (filter (fun b => 0 < Blob.size b) data))
  <= match variant cfg with Basic => 1000 | Enhanced => 8000 end
  \/ maxConcurrentProcessing cfg <= queueLength st
  \/ (variant cfg = Enhanced /\ (minAudioLevel cfg <? audioLevel cfg)%float = false) ->
  recorderStop cfg k now data st = set_recorders (delete k (recorders st)) st.
Proof. apply recorderStop_rejected. Qed.

Lemma quiet_step (cfg : Config) (st : State) (e : Event) :
  variant cfg = Enhanced ->
  (minAudioLevel cfg <? audioLevel cfg)%float = false ->
  nothingAdmitted st -> nothingAdmitted (step cfg st e).
Proof.
  intros Hv Hquiet (Hq & Hs & Hr & Hp & Hc). unfold nothingAdmitted.
  destruct e; cbn [step].
  - unfold startListening. rewrite Hv. by cbn.
  - unfold startContinuousRecording. rewrite Hv. by case_match.
  - unfold recordChunk, generateChunkId. by repeat case_match.
  - destruct (recorders st !! k) as [chunkId|] eqn:Hk.
    + rewrite (recorderStop_rejected cfg st k now data chunkId Hk); [done|].
      right; right. by split.
    + unfold recorderStop. by rewrite Hk.
  - unfold awaitsDone. by rewrite Hs, lookup_empty.
  - unfold fireFlushTimer, flushCallback. cbn. rewrite Hp. cbn.
    by repeat case_match.
  - unfold stopListening, stopContinuousRecording, drainWaiters, log. rewrite Hv.
    cbn. by repeat case_match.
  - unfold clearResponses. rewrite Hv. by cbn.
Qed.

Lemma silent_step (cfg : Config) (st : State) (e : Event) :
  variant cfg = Enhanced ->
  (audioLevel cfg <? minAudioLevel cfg)%float = true ->
  recorders st = [] /\ chunkCounterRef st = 0 ->
  recorders (step cfg st e) = [] /\ chunkCounterRef (step cfg st e) = 0.
Proof.
  intros Hv Hsilent [Hr Hc].
  destruct e; cbn [step].
  - unfold startListening. rewrite Hv. by cbn.
  - unfold startContinuousRecording. rewrite Hv. by case_match.
  - unfold recordChunk. rewrite Hv, Hsilent. by case_match.
  - unfold recorderStop. by rewrite Hr.
  - unfold awaitsDone. case_match; [|done]. destruct o; split_handlers; done.
  - unfold fireFlushTimer, flushCallback, flush, log.
    by repeat case_match.
  - unfold stopListening, stopContinuousRecording, drainWaiters, log. rewrite Hv.
    cbn. by repeat case_match.
  - unfold clearResponses. rewrite Hv. by cbn.
Qed.

(** X9: in the enhanced component a session whose captured audio level is
    not above [minAudioLevel] never admits a segment: the queue, the
    suspended calls, the visible list and the buffer stay empty and the
    counter stays 0.  When the level is below the minimum, no recorder is
    even started and no identifier is generated. *)
Theorem quiet_session_admits_nothing (cfg : Config) (evs : list Event) :
  variant cfg = Enhanced ->
  let st := run cfg evs initialState in
  ((minAudioLevel cfg <? audioLevel cfg)%float = false -> nothingAdmitted st)
  /\ ((audioLevel cfg <? minAudioLevel cfg)%float = true ->
      recorders st = [] /\ chunkCounterRef st = 0).
Proof.
  intros Hv st. split; intros Hlevel.
  - apply (run_invariant cfg nothingAdmitted); [|by repeat split].
    intros s e. by apply quiet_step.
  - apply (run_invariant cfg (fun s => recorders s = [] /\ chunkCounterRef s = 0));
      [|done].
    intros s e. by apply silent_step.
Qed.

(** ** Buffered responses and their timers *)

Lemma bufferHasTimer_frame (cfg : Config) (st st' : State) :
  pendingResponsesRef st' = pendingResponsesRef st ->
  lastResponseTimeRef st' = lastResponseTimeRef st ->
  flushTimers st' = flushTimers st ->
  bufferHasTimer cfg st -> bufferHasTimer cfg st'.
Proof. unfold bufferHasTimer. by intros -> -> ->. Qed.

Lemma bufferHasTimer_empty (cfg : Config) (st : State) :
  pendingResponsesRef st = [] -> bufferHasTimer cfg st.
Proof. unfold bufferHasTimer. by intros ->. Qed.

Lemma updateResponsesWithDelay_timer (cfg : Config) now newResponse st :
  bufferHasTimer cfg (updateResponsesWithDelay cfg now newResponse st).
Proof.
  unfold updateResponsesWithDelay. cbn.
  destruct (responseUpdateDelay cfg <=? now - lastResponseTimeRef st).
  - by apply bufferHasTimer_empty.
  - unfold bufferHasTimer. cbn. intros _. apply elem_of_app. right.
    apply list_elem_of_singleton. lia.
Qed.

Lemma onstop_timer (cfg : Config) now chunkId chunks st :
  bufferHasTimer cfg st -> bufferHasTimer cfg (onstop cfg now chunkId chunks st).
Proof.
  intros Hst. unfold onstop.
  destruct (0 <? length chunks)%nat; [|done].
  destruct (shouldProcess cfg (blobOf chunks) st); [|done].
  unfold processAudioChunk_begin. destruct (variant cfg).
  - by eapply bufferHasTimer_frame; [..|exact Hst].
  - destruct (Blob.size (blobOf chunks) <? 5000).
    + by eapply bufferHasTimer_frame; [..|exact Hst].
    + cbn [fst snd].
      eapply bufferHasTimer_frame;
        [..|apply (updateResponsesWithDelay_timer cfg now
                     (placeholderResponse cfg now chunkId)
                     (set_activeProcessingCount
                        (activeProcessingCount (set_nextPromise (S (nextPromise st)) st) + 1)
                        (set_nextPromise (S (nextPromise st)) st)))];
        reflexivity.
Qed.

Lemma fireFlushTimer_empties (k : nat) (now due : Z) (st : State) :
  flushTimers st !! k = Some due -> due <= now ->
  pendingResponsesRef (fireFlushTimer k now st) = []
  /\ ((length (pendingResponsesRef st) <= 20)%nat ->
      take (length (pendingResponsesRef st)) (responses (fireFlushTimer k now st))
      = pendingResponsesRef st).
Proof.
  intros Hk Hdue. unfold fireFlushTimer, flushCallback. rewrite Hk.
  replace (due <=? now) with true by (symmetry; apply Z.leb_le; lia). cbn.
  destruct (pendingResponsesRef st) as [|r pending] eqn:Hp; cbn.
  - by rewrite Hp.
  - split; [done|]. intros Hlen. rewrite Hp. unfold flushUpdater.
    rewrite take_take. replace (S (length pending) `min` 20)%nat
      with (length (r :: pending)) by (cbn; lia).
    by rewrite take_app_length.
Qed.

Lemma step_timer (cfg : Config) (st : State) (e : Event) :
  bufferHasTimer cfg st -> bufferHasTimer cfg (step cfg st e).
Proof.
  intros Hst. destruct e; cbn [step].
  - eapply bufferHasTimer_frame; [..|exact Hst]; split_handlers; done.
  - eapply bufferHasTimer_frame; [..|exact Hst]; split_handlers; done.
  - eapply bufferHasTimer_frame; [..|exact Hst]; split_handlers; done.
  - unfold recorderStop. destruct (recorders st !! k); [|done].
    apply onstop_timer. by eapply bufferHasTimer_frame; [..|exact Hst].
  - eapply bufferHasTimer_frame; [..|exact Hst];
      unfold awaitsDone; (destruct (suspended st !! promise); [|done]);
      destruct o; split_handlers; done.
  - unfold fireFlushTimer. destruct (flushTimers st !! k) as [due|] eqn:Hk; [|done].
    destruct (due <=? now) eqn:Hdue; [|done].
    apply bufferHasTimer_empty.
    pose proof (fireFlushTimer_empties k now due st Hk ltac:(lia)) as [He _].
    unfold fireFlushTimer in He. by rewrite Hk, Hdue in He.
  - destruct (variant cfg) eqn:Hv.
    + eapply bufferHasTimer_frame; [..|exact Hst];
        unfold stopListening, stopContinuousRecording, drainWaiters, log;
        rewrite Hv; cbn; by repeat case_match.
    + apply bufferHasTimer_empty.
      unfold stopListening, stopContinuousRecording, drainWaiters, log.
      rewrite Hv. cbn. by repeat case_match.
  - unfold clearResponses. destruct (variant cfg); [done|].
    by apply bufferHasTimer_empty.
Qed.

(** X10: after any sequence of events, a non-empty buffer of the presenter
    has an armed timer that is due exactly [responseUpdateDelay] after the
    last flush; and a due timer that fires empties the buffer, putting the
    buffered responses, when there are at most 20, at the front of the
    visible list in the order in which they were buffered. *)
Theorem buffered_responses_have_a_timer (cfg : Config) (evs : list Event) :
  let st := run cfg evs initialState in
  (pendingResponsesRef st <> [] ->
   lastResponseTimeRef st + responseUpdateDelay cfg ∈ flushTimers st)
  /\ (forall k now due,
        flushTimers st !! k = Some due -> due <= now ->
        pendingResponsesRef (fireFlushTimer k now st) = []
        /\ ((length (pendingResponsesRef st) <= 20)%nat ->
            take (length (pendingResponsesRef st)) (responses (fireFlushTimer k now st))
            = pendingResponsesRef st)).
Proof.
  intros st. split.
  - apply (run_invariant cfg (bufferHasTimer cfg));
      [apply step_timer|by apply bufferHasTimer_empty].
  - intros k now due. apply fireFlushTimer_empties.
Qed.

(** X11: a call of [updateResponsesWithDelay] that comes less than
    [responseUpdateDelay] after the last flush, with a clock that is not
    behind that flush, leaves the visible list alone and arms one timer; the
    wait of that timer is positive and at most [responseUpdateDelay]. *)
Theorem buffered_call_waits_at_most_delay (cfg : Config) (now : Z)
    (newResponse : GeminiResponse.t) (st : State) :
  lastResponseTimeRef st <= now ->
  now - lastResponseTimeRef st < responseUpdateDelay cfg ->
  let st' := updateResponsesWithDelay cfg now newResponse st in
  responses st' = responses st
  /\ exists due,
       flushTimers st' = flushTimers st ++ [due]
       /\ now < due <= now + responseUpdateDelay cfg.
Proof.
  intros Hmono Hearly st'.
  pose proof (updateResponsesWithDelay_cases cfg now newResponse st) as H.
  cbn zeta in H. fold st' in H.
  destruct (responseUpdateDelay cfg <=? now - lastResponseTimeRef st) eqn:Hcmp; [lia|].
  destruct H as (Hr & _ & Ht). split; [exact Hr|].
  eexists. split; [exact Ht|]. lia.
Qed.

(** ** What a settling call leaves alone *)

(** X12: a call that settles, whatever its outcome, leaves the recording
    loop and the presenter alone: the recording flag, the interval, the
    stream, the active recorders, the counter of identifiers, the buffer,
    the timers and the time of the last flush are unchanged; and when an
    awaited call has thrown, the visible list only loses the records of that
    chunk. *)
Theorem settling_leaves_recording_alone (cfg : Config) (st : State)
    (promise : nat) (now : Z) (o : Outcome) :
  let st' := awaitsDone cfg promise now o st in
  continuousRecordingRef st' = continuousRecordingRef st
  /\ recordingIntervalRef st' = recordingIntervalRef st
  /\ streamRef st' = streamRef st
  /\ isListening st' = isListening st
  /\ recorders st' = recorders st
  /\ chunkCounterRef st' = chunkCounterRef st
  /\ pendingResponsesRef st' = pendingResponsesRef st
  /\ flushTimers st' = flushTimers st
  /\ lastResponseTimeRef st' = lastResponseTimeRef st
  /\ (forall chunkId,
        suspended st !! promise = Some chunkId -> o = Thrown ->
        responses st' = removePlaceholder chunkId (responses st)).
Proof.
  intros st'. subst st'. unfold awaitsDone.
  destruct (suspended st !! promise) as [c|]; [|by repeat split].
  repeat split; try (destruct o; split_handlers; done).
  intros chunkId [= <-] ->. reflexivity.
Qed.

(** ** Completions without a placeholder *)

Lemma removePlaceholder_absent chunkId (prev : list GeminiResponse.t) :
  (forall r, r ∈ prev -> GeminiResponse.id r <> chunkId) ->
  removePlaceholder chunkId prev = prev.
Proof.
  unfold removePlaceholder. induction prev as [|x prev IH]; intros H; [done|].
  rewrite filter_cons_True by (apply H; left).
  f_equal. apply IH. intros r Hr. apply H. by right.
Qed.

Lemma replacePlaceholder_absent chunkId g (prev : list GeminiResponse.t) :
  (forall r, r ∈ prev -> GeminiResponse.id r <> chunkId) ->
  replacePlaceholder chunkId g prev = prev.
Proof.
  unfold replacePlaceholder. induction prev as [|x prev IH]; intros H; [done|].
  cbn. destruct (decide (GeminiResponse.id x = chunkId)) as [Hx|_].
  - exfalso. by apply (H x); [left|].
  - f_equal. apply IH. intros r Hr. apply H. by right.
Qed.

Lemma awaitsDone_responses_absent (cfg : Config) st promise chunkId now o :
  suspended st !! promise = Some chunkId ->
  (forall r, r ∈ responses st -> GeminiResponse.id r <> chunkId) ->
  responses (awaitsDone cfg promise now o st) = responses st.
Proof.
  intros Hsusp Habsent. unfold awaitsDone. rewrite Hsusp.
  destruct o as [|content].
  - cbn. by apply removePlaceholder_absent.
  - unfold processAudioChunk_resume, tryBlock.
    destruct (Parser.parseResponse (variant cfg) (currentLanguage cfg) content); cbn.
    + by apply removePlaceholder_absent.
    + by apply replacePlaceholder_absent.
Qed.

(** X13: when a call settles while no record with its chunk identifier is
    in the visible list, the visible list stays as it is whatever the
    outcome: an accepted result is not shown; the queue entry of the chunk is
    released all the same. *)
Theorem completion_without_placeholder_is_lost (cfg : Config) (st : State)
    (promise : nat) (chunkId : string) (now : Z) (o : Outcome) :
  suspended st !! promise = Some chunkId ->
  (forall r, r ∈ responses st -> GeminiResponse.id r <> chunkId) ->
  let st' := awaitsDone cfg promise now o st in
  responses st' = responses st
  /\ processingQueueRef st' !! chunkId = None.
Proof.
  intros Hsusp Habsent st'.
  split; [by apply (awaitsDone_responses_absent cfg st promise chunkId)|].
  pose proof (awaitsDone_queue cfg promise now o st) as H. rewrite Hsusp in H.
  subst st'. rewrite H. apply lookup_delete_eq.
Qed.

(** X14: [clearResponses] of the enhanced component empties the visible
    list and the buffer and leaves the queue and the calls in flight as they
    are; a call that settles afterwards, whatever its outcome, leaves the
    visible list empty. *)
Theorem clear_does_not_cancel (cfg : Config) (st : State)
    (promise : nat) (chunkId : string) (now : Z) (o : Outcome) :
  variant cfg = Enhanced ->
  suspended st !! promise = Some chunkId ->
  let st1 := clearResponses cfg st in
  responses st1 = [] /\ pendingResponsesRef st1 = []
  /\ processingQueueRef st1 = processingQueueRef st
  /\ suspended st1 = suspended st
  /\ activeProcessingCount st1 = activeProcessingCount st
  /\ responses (awaitsDone cfg promise now o st1) = [].
Proof.
  intros Hv Hsusp st1. subst st1. unfold clearResponses. rewrite Hv.
  repeat split.
  rewrite (awaitsDone_responses_absent cfg _ promise chunkId); [done|exact Hsusp|].
  intros r Hr. by apply elem_of_nil in Hr.
Qed.

(** ** Placeholders that arrive after their call *)

Lemma placeholderResponse_isProcessing (cfg : Config) now chunkId :
  GeminiResponse.isProcessing (placeholderResponse cfg now chunkId) = true.
Proof. unfold placeholderResponse. by destruct (variant cfg). Qed.

Lemma sameRecord_refl r : sameRecord r r.
Proof. by split. Qed.

Lemma elem_of_take_inv (n : nat) (l : list GeminiResponse.t) r : r ∈ take n l -> r ∈ l.
Proof. intros H. eapply elem_of_sublist; [exact H|apply sublist_take]. Qed.

Lemma flushUpdater_elem responsesToAdd prev r' :
  r' ∈ flushUpdater responsesToAdd prev ->
  exists r, r ∈ responsesToAdd ++ prev /\ sameRecord r' r.
Proof.
  unfold flushUpdater. intros H%elem_of_take_inv.
  apply elem_of_app in H as [H|H].
  - exists r'. split; [apply elem_of_app; by left|apply sameRecord_refl].
  - destruct (15 <? length prev)%nat.
    + apply elem_of_lookup_imap_1 in H as (i & y & -> & Hy).
      exists y. split; [apply elem_of_app; right; by eapply list_elem_of_lookup_2|].
      destruct (10 <? i)%nat; by split.
    + exists r'. split; [apply elem_of_app; by right|apply sameRecord_refl].
Qed.

Lemma origin_old (st : State) r' : r' ∈ shown st -> RecordOrigin st r'.
Proof. intros H. left. exists r'. split; [exact H|apply sameRecord_refl]. Qed.

Lemma flush_origin (st0 : State) now st r' :
  shown st = shown st0 -> r' ∈ shown (flush now st) -> RecordOrigin st0 r'.
Proof.
  intros Hshown. unfold flush, log, shown at 1. cbn.
  intros (r & Hr & Hsame)%flushUpdater_elem. left. exists r.
  split; [by rewrite <- Hshown|exact Hsame].
Qed.

Lemma updateResponsesWithDelay_origin (cfg : Config) now chunkId st r' :
  r' ∈ shown (updateResponsesWithDelay cfg now (placeholderResponse cfg now chunkId) st) ->
  RecordOrigin st r'.
Proof.
  pose proof (updateResponsesWithDelay_cases cfg now
                (placeholderResponse cfg now chunkId) st) as H.
  cbn zeta in H. unfold shown.
  destruct (responseUpdateDelay cfg <=? now - lastResponseTimeRef st);
    destruct H as (-> & -> & _).
  - cbn [app]. intros (r & Hr & [Hid Hproc])%flushUpdater_elem.
    rewrite <- app_assoc in Hr.
    apply elem_of_app in Hr as [Hr|[->%list_elem_of_singleton|Hr]%elem_of_app].
    + left. exists r. split; [apply elem_of_app; by left|by split].
    + right; left. by rewrite Hproc, placeholderResponse_isProcessing.
    + left. exists r. split; [apply elem_of_app; by right|by split].
  - rewrite <- app_assoc.
    intros [Hr|[->%list_elem_of_singleton|Hr]%elem_of_app]%elem_of_app.
    + apply origin_old. apply elem_of_app. by left.
    + right; left. apply placeholderResponse_isProcessing.
    + apply origin_old. apply elem_of_app. by right.
Qed.

Lemma RecordOrigin_frame (st0 st : State) r' :
  shown st = shown st0 -> suspended st = suspended st0 ->
  RecordOrigin st r' -> RecordOrigin st0 r'.
Proof. unfold RecordOrigin. by intros -> ->. Qed.

Lemma onstop_origin (cfg : Config) now chunkId chunks st r' :
  r' ∈ shown (onstop cfg now chunkId chunks st) -> RecordOrigin st r'.
Proof.
  unfold onstop.
  destruct (0 <? length chunks)%nat; [|apply origin_old].
  destruct (shouldProcess cfg (blobOf chunks) st); [|apply origin_old].
  unfold processAudioChunk_begin. destruct (variant cfg).
  - unfold shown, log. cbn.
    intros [Hr|[->|Hr%elem_of_take_inv]%elem_of_cons]%elem_of_app.
    + apply origin_old. apply elem_of_app. by left.
    + right; left. apply placeholderResponse_isProcessing.
    + apply origin_old. apply elem_of_app. by right.
  - destruct (Blob.size (blobOf chunks) <? 5000); [apply origin_old|].
    cbn [fst snd]. intros H.
    eapply (RecordOrigin_frame st
              (set_activeProcessingCount
                 (activeProcessingCount (set_nextPromise (S (nextPromise st)) st) + 1)
                 (set_nextPromise (S (nextPromise st)) st)));
      [reflexivity..|].
    apply (updateResponsesWithDelay_origin cfg now chunkId). exact H.
Qed.

Lemma awaitsDone_origin (cfg : Config) promise now o st r' :
  r' ∈ shown (awaitsDone cfg promise now o st) -> RecordOrigin st r'.
Proof.
  unfold awaitsDone.
  destruct (suspended st !! promise) as [chunkId|] eqn:Hsusp; [|apply origin_old].
  assert (Hremove : forall l, r' ∈ pendingResponsesRef st ++ removePlaceholder chunkId l ->
                              r' ∈ pendingResponsesRef st ++ l).
  { intros l [H|H]%elem_of_app; apply elem_of_app; [by left|right].
    unfold removePlaceholder in H. by apply list_elem_of_filter in H as [_ H]. }
  destruct o as [|content].
  - unfold shown. cbn. intros H%Hremove. by apply origin_old.
  - unfold processAudioChunk_resume, tryBlock.
    destruct (Parser.parseResponse (variant cfg) (currentLanguage cfg) content);
      unfold shown; cbn.
    + intros H%Hremove. by apply origin_old.
    + intros [H|H]%elem_of_app.
      * apply origin_old. apply elem_of_app. by left.
      * unfold replacePlaceholder in H.
        apply list_elem_of_fmap in H as (r & -> & Hr).
        destruct (decide (GeminiResponse.id r = chunkId)).
        -- right; right. by exists promise.
        -- apply origin_old. apply elem_of_app. by right.
Qed.

Lemma step_origin (cfg : Config) (st : State) (e : Event) r' :
  r' ∈ shown (step cfg st e) -> RecordOrigin st r'.
Proof.
  destruct e; cbn [step].
  - replace (shown (startListening cfg now st)) with (shown st)
      by (unfold shown; split_handlers; done). apply origin_old.
  - replace (shown (startContinuousRecording cfg now st)) with (shown st)
      by (unfold shown; split_handlers; done). apply origin_old.
  - replace (shown (recordChunk cfg now st)) with (shown st)
      by (unfold shown; split_handlers; done). apply origin_old.
  - unfold recorderStop. destruct (recorders st !! k) as [chunkId|]; [|apply origin_old].
    intros H%onstop_origin. by eapply RecordOrigin_frame; [..|exact H].
  - apply awaitsDone_origin.
  - unfold fireFlushTimer. destruct (flushTimers st !! k); [|apply origin_old].
    destruct (_ <=? _); [|apply origin_old]. unfold flushCallback.
    destruct (0 <? _)%nat; [by apply flush_origin|apply origin_old].
  - destruct (variant cfg) eqn:Hv.
    + replace (shown (stopListening cfg st)) with (shown st); [apply origin_old|].
      unfold shown, stopListening, stopContinuousRecording, drainWaiters, log.
      rewrite Hv. cbn. by repeat case_match.
    + replace (shown (stopListening cfg st)) with (responses st).
      * intros H. apply origin_old. apply elem_of_app. by right.
      * unfold shown, stopListening, stopContinuousRecording, drainWaiters, log.
        rewrite Hv. cbn. by repeat case_match.
  - unfold clearResponses. destruct (variant cfg); [apply origin_old|].
    unfold shown. cbn. by intros H%elem_of_nil.
Qed.

Lemma step_pending_placeholders (cfg : Config) (st : State) (e : Event) :
  (forall r, r ∈ pendingResponsesRef st -> GeminiResponse.isProcessing r = true) ->
  forall r, r ∈ pendingResponsesRef (step cfg st e) ->
            GeminiResponse.isProcessing r = true.
Proof.
  intros Hst r.
  assert (Hcases : pendingResponsesRef (step cfg st e) = pendingResponsesRef st
                   \/ pendingResponsesRef (step cfg st e) = []
                   \/ exists now chunkId,
                        pendingResponsesRef (step cfg st e)
                        = pendingResponsesRef st ++ [placeholderResponse cfg now chunkId]).
  { destruct e; cbn [step].
    - left. split_handlers; done.
    - left. split_handlers; done.
    - left. split_handlers; done.
    - unfold recorderStop. destruct (recorders st !! k) as [chunkId|]; [|by left].
      unfold onstop. destruct (0 <? length _)%nat; [|by left].
      destruct (shouldProcess _ _ _); [|by left].
      unfold processAudioChunk_begin. destruct (variant cfg); [by left|].
      destruct (Blob.size _ <? 5000); [by left|].
      unfold updateResponsesWithDelay. cbn.
      destruct (_ <=? _); cbn; [right; by left|right; right; by eexists _, _].
    - left. unfold awaitsDone. destruct (suspended st !! promise); [|done].
      destruct o; split_handlers; done.
    - unfold fireFlushTimer. destruct (flushTimers st !! k); [|by left].
      destruct (_ <=? _); [|by left]. unfold flushCallback.
      destruct (0 <? _)%nat; [right|]; by left.
    - unfold stopListening, stopContinuousRecording, drainWaiters, log.
      destruct (variant cfg); cbn; [left|right; left]; by repeat case_match.
    - unfold clearResponses. destruct (variant cfg); [by left|right; by left]. }
  destruct Hcases as [->|[->|(now & chunkId & ->)]].
  - apply Hst.
  - by intros H%elem_of_nil.
  - intros [H| ->%list_elem_of_singleton]%elem_of_app;
      [by apply Hst|apply placeholderResponse_isProcessing].
Qed.

Lemma pending_placeholders_run (cfg : Config) (evs : list Event) :
  forall r, r ∈ pendingResponsesRef (run cfg evs initialState) ->
            GeminiResponse.isProcessing r = true.
Proof.
  apply (run_invariant cfg
           (fun st => forall r, r ∈ pendingResponsesRef st ->
                                GeminiResponse.isProcessing r = true)).
  - intros st e. apply step_pending_placeholders.
  - intros r H. by apply elem_of_nil in H.
Qed.

Lemma Orphaned_step (cfg : Config) chunkId (st : State) (e : Event) :
  Orphaned chunkId st -> Orphaned chunkId (step cfg st e).
Proof.
  intros [Hinv Hsus Hrec Hgen Hshown].
  pose proof (step_flight_step cfg st e) as Hstep.
  pose proof (FlightInv_step _ _ Hstep Hinv) as Hinv'.
  split; [exact Hinv'|..].
  - destruct Hstep as [Hr Hc Hs Hn Hq Ha
                      |now Hr Hc Hs Hn Hq Ha
                      |k c Hk Hr Hc Hs Hn Hq Ha
                      |k c entry Hk Hp Hr Hc Hs Hn Hq Ha
                      |p c Hp Hr Hc Hs Hn Hq Ha]; rewrite Hs; try exact Hsus.
    + intros q [[_ <-]|[_ H]]%lookup_insert_Some; [|by apply (Hsus q)].
      apply Hrec. by eapply list_elem_of_lookup_2.
    + intros q [_ H]%lookup_delete_Some. by apply (Hsus q).
  - destruct Hstep as [Hr Hc Hs Hn Hq Ha
                      |now Hr Hc Hs Hn Hq Ha
                      |k c Hk Hr Hc Hs Hn Hq Ha
                      |k c entry Hk Hp Hr Hc Hs Hn Hq Ha
                      |p c Hp Hr Hc Hs Hn Hq Ha]; rewrite Hr; try exact Hrec.
    + intros [H| ->%list_elem_of_singleton]%elem_of_app; [done|].
      by eapply generatedUpTo_fresh.
    + intros H. apply Hrec. by eapply list_elem_of_delete_inv.
    + intros H. apply Hrec. by eapply list_elem_of_delete_inv.
  - destruct Hstep as [Hr Hc Hs Hn Hq Ha
                      |now Hr Hc Hs Hn Hq Ha
                      |k c Hk Hr Hc Hs Hn Hq Ha
                      |k c entry Hk Hp Hr Hc Hs Hn Hq Ha
                      |p c Hp Hr Hc Hs Hn Hq Ha]; rewrite Hc; try exact Hgen.
    eapply generatedUpTo_mono; [|exact Hgen]. lia.
  - intros r' Hr' Hid.
    destruct (step_origin cfg st e r' Hr') as [(r & Hr & Hsame & Hproc)|[H|[p Hp]]].
    + rewrite Hproc. apply Hshown; [exact Hr|congruence].
    + exact H.
    + rewrite Hid in Hp. by apply Hsus in Hp.
Qed.

Lemma awaitsDone_frame (cfg : Config) (st : State) promise now o :
  recorders (awaitsDone cfg promise now o st) = recorders st
  /\ chunkCounterRef (awaitsDone cfg promise now o st) = chunkCounterRef st
  /\ pendingResponsesRef (awaitsDone cfg promise now o st) = pendingResponsesRef st.
Proof.
  unfold awaitsDone. destruct (suspended st !! promise); [|done].
  repeat split; destruct o; split_handlers; done.
Qed.

Lemma Orphaned_settled (cfg : Config) (st : State) promise chunkId now o :
  FlightInv st ->
  (forall r, r ∈ pendingResponsesRef st -> GeminiResponse.isProcessing r = true) ->
  suspended st !! promise = Some chunkId ->
  (forall r, r ∈ responses st -> GeminiResponse.id r <> chunkId) ->
  Orphaned chunkId (awaitsDone cfg promise now o st).
Proof.
  intros Hinv Hpending Hsusp Habsent.
  pose proof (step_flight_step cfg st (AwaitsDone promise now o)) as Hstep.
  cbn [step] in Hstep.
  pose proof (FlightInv_step _ _ Hstep Hinv) as Hinv'.
  pose proof (awaitsDone_suspended cfg promise now o st chunkId Hsusp) as Hs.
  pose proof (awaitsDone_responses_absent cfg st promise chunkId now o Hsusp Habsent)
    as Hresp.
  destruct (awaitsDone_frame cfg st promise now o) as (Hr & Hc & Hp).
  split; [exact Hinv'|..].
  - rewrite Hs. intros q [Hne H]%lookup_delete_Some.
    apply Hne. by eapply (fi_injective _ Hinv).
  - rewrite Hr. by eapply (fi_disjoint _ Hinv).
  - rewrite Hc. by eapply (fi_suspended _ Hinv).
  - unfold shown. rewrite Hp, Hresp. intros r [H|H]%elem_of_app Hid.
    + by apply Hpending.
    + by apply Habsent in H.
Qed.

(** X15: when a call settles while no record with its chunk identifier is
    in the visible list (its placeholder is still buffered, or was removed
    or evicted), the result is not shown, and no later event completes a
    record of that chunk: every record with that identifier that is in the
    visible list after any further events is still a placeholder. *)
Theorem late_placeholder_stays_processing (cfg : Config) (evs1 evs2 : list Event)
    (promise : nat) (chunkId : string) (now : Z) (o : Outcome) :
  let st := run cfg evs1 initialState in
  suspended st !! promise = Some chunkId ->
  (forall r, r ∈ responses st -> GeminiResponse.id r <> chunkId) ->
  let st1 := awaitsDone cfg promise now o st in
  let st2 := run cfg evs2 st1 in
  responses st1 = responses st
  /\ (forall r, r ∈ responses st2 -> GeminiResponse.id r = chunkId ->
                GeminiResponse.isProcessing r = true).
Proof.
  intros st Hsusp Habsent st1 st2.
  pose proof (FlightInv_run cfg evs1) as Hinv. fold st in Hinv.
  pose proof (pending_placeholders_run cfg evs1) as Hpending. fold st in Hpending.
  clearbody st.
  pose proof (Orphaned_settled cfg st promise chunkId now o Hinv Hpending Hsusp Habsent)
    as Horphan.
  pose proof (awaitsDone_responses_absent cfg st promise chunkId now o Hsusp Habsent)
    as Hresp.
  fold st1 in Horphan, Hresp. clearbody st1.
  assert (Horphan2 : Orphaned chunkId st2).
  { apply (run_invariant cfg (Orphaned chunkId)); [|exact Horphan].
    intros s e. apply Orphaned_step. }
  clearbody st2. split; [exact Hresp|].
  intros r Hr. apply (or_records _ _ Horphan2). unfold shown.
  apply elem_of_app. by right.
Qed.

(** ** The first version of the component *)

Lemma captureOr_nonempty m fallback :
  fallback <> EmptyString -> Parser.captureOr m fallback <> EmptyString.
Proof.
  intros Hf. unfold Parser.captureOr, orElse. destruct m as [captured|]; [|exact Hf].
  by destruct (trim captured).
Qed.

Lemma legacy_receive_snoc st texts text :
  Legacy.receive st (texts ++ [text])
  = Legacy.processAudioChunk_resume text.1 (Legacy.Content text.2)
      (Legacy.receive st texts).
Proof. unfold Legacy.receive. by rewrite foldl_app. Qed.

(** X16: in the first version of the component, the history after a
    sequence of response texts holds the records of the ten newest texts,
    newest first, followed by what is left of the old history within ten
    entries. *)
Theorem legacy_history_keeps_ten_newest (st : Legacy.State)
    (texts : list (Z * string)) :
  (length (Legacy.responses st) <= 10)%nat ->
  Legacy.responses (Legacy.receive st texts)
  = take 10 (reverse ((fun text => Legacy.parse text.1 text.2) <$> texts)
             ++ Legacy.responses st).
Proof.
  intros Hlen. induction texts as [|text texts IH] using rev_ind.
  - cbn. by rewrite take_ge by lia.
  - rewrite legacy_receive_snoc. unfold Legacy.processAudioChunk_resume. cbn.
    rewrite IH, fmap_app, reverse_app. cbn.
    unfold Legacy.addResponse. by rewrite take_take.
Qed.

(** X17: in the first version of the component every response text yields
    a record, whose transcription and answer are never empty, at the head of
    the history: no text is rejected.  Whatever the outcome of a call, the
    processing flag is false afterwards, and a failed call leaves the history
    as it was. *)
Theorem legacy_never_rejects (st : Legacy.State) (now : Z) (o : Legacy.Outcome) :
  let st' := Legacy.processAudioChunk_resume now o st in
  Legacy.isProcessing st' = false
  /\ match o with
     | Legacy.Content content =>
         head (Legacy.responses st') = Some (Legacy.parse now content)
         /\ Legacy.transcription (Legacy.parse now content) <> EmptyString
         /\ Legacy.answer (Legacy.parse now content) <> EmptyString
         /\ Legacy.currentTranscription st'
            = Legacy.transcription (Legacy.parse now content)
     | Legacy.ConfigMissing | Legacy.Thrown =>
         Legacy.responses st' = Legacy.responses st
     end.
Proof.
  intros st'. split; [done|]. destruct o as [| |content]; [done..|].
  repeat split; by apply captureOr_nonempty.
Qed.

(** ** Instances of the further properties *)

(** The sample response is accepted with trimmed fields. *)
Lemma accepted_fields_trimmed_witness :
  Parser.parseResponse Enhanced "python" sampleResponse
  = Accepted "Tell me about yourself" "Focus on relevant experience." 0.7%float
  /\ trim "Tell me about yourself" = "Tell me about yourself"%string
  /\ trim "Focus on relevant experience." = "Focus on relevant experience."%string.
Proof.
  assert (H : Parser.parseResponse Enhanced "python" sampleResponse
              = Accepted "Tell me about yourself" "Focus on relevant experience."
                         0.7%float) by (vm_compute; reflexivity).
  split; [exact H|].
  exact (accepted_fields_trimmed Enhanced "python" sampleResponse _ _ _ H).
Defined.

(** The confidence of the sample response is in the range. *)
Lemma accepted_confidence_range_witness :
  Parser.parseResponse Enhanced "python" sampleResponse
  = Accepted "Tell me about yourself" "Focus on relevant experience." 0.7%float
  /\ (0.7 <=? 0.7)%float = true /\ (0.7 <=? 0.95)%float = true.
Proof.
  assert (H : Parser.parseResponse Enhanced "python" sampleResponse
              = Accepted "Tell me about yourself" "Focus on relevant experience."
                         0.7%float) by (vm_compute; reflexivity).
  split; [exact H|].
  exact (accepted_confidence_range Enhanced "python" sampleResponse _ _ _ H).
Defined.

(** A text without markers. *)
Lemma missing_transcription_marker_witness :
  includes "TRANSCRIPTION:" unmarkedText = false
  /\ Parser.parseResponse Enhanced "python" unmarkedText = Rejected.
Proof.
  assert (H : includes "TRANSCRIPTION:" unmarkedText = false) by (vm_compute; reflexivity).
  split; [exact H|].
  exact (proj1 (missing_transcription_marker "python" unmarkedText H)).
Defined.

(** The two sections of the sample response. *)
Lemma format_round_trip_witness :
  includes "ANSWER:" "Tell me about yourself" = false
  /\ blank "Tell me about yourself" = false
  /\ Parser.transcriptionOf Enhanced
       (formatResponse "Tell me about yourself" "Focus on relevant experience.")
     = trim "Tell me about yourself".
Proof.
  assert (H1 : includes "ANSWER:" "Tell me about yourself" = false) by reflexivity.
  assert (H2 : blank "Tell me about yourself" = false) by reflexivity.
  split; [exact H1|]. split; [exact H2|].
  exact (proj1 (format_round_trip Enhanced "Tell me about yourself"
                  "Focus on relevant experience." H1 H2)).
Defined.

(** A recorder that stops with 500 bytes. *)
Lemma rejected_segment_leaves_no_trace_witness :
  let st := run enhancedDefaults oneRecorder initialState in
  recorders st !! 0%nat = Some "chunk_2500_1"%string
  /\ recorderStop enhancedDefaults 0 4500 [Blob.mk 500] st
     = set_recorders (delete 0%nat (recorders st)) st.
Proof.
  intros st.
  assert (H : recorders st !! 0%nat = Some "chunk_2500_1"%string)
    by (vm_compute; reflexivity).
  split; [exact H|].
  apply (rejected_segment_leaves_no_trace enhancedDefaults st 0 4500 [Blob.mk 500]
           "chunk_2500_1" H).
  left. vm_compute. discriminate.
Defined.

(** The session with two recorders, at the level 0. *)
Lemma quiet_session_admits_nothing_witness :
  variant quietDefaults = Enhanced
  /\ (minAudioLevel quietDefaults <? audioLevel quietDefaults)%float = false
  /\ nothingAdmitted (run quietDefaults twoAdmissions initialState).
Proof.
  assert (Hv : variant quietDefaults = Enhanced) by reflexivity.
  assert (Hq : (minAudioLevel quietDefaults <? audioLevel quietDefaults)%float = false)
    by (vm_compute; reflexivity).
  split; [exact Hv|]. split; [exact Hq|].
  exact (proj1 (quiet_session_admits_nothing quietDefaults twoAdmissions Hv) Hq).
Defined.

(** The second admission of the session with two recorders. *)
Lemma buffered_call_waits_at_most_delay_witness :
  let st := run enhancedDefaults
              [StartListening 1000; StartContinuousRecording 2000;
               RecordChunk 2500; RecordChunk 3600; RecorderStop 0 4500 speech]
              initialState in
  let r := placeholderResponse enhancedDefaults 5600 "chunk_3600_2" in
  lastResponseTimeRef st <= 5600
  /\ 5600 - lastResponseTimeRef st < responseUpdateDelay enhancedDefaults
  /\ responses (updateResponsesWithDelay enhancedDefaults 5600 r st) = responses st.
Proof.
  intros st r.
  assert (H1 : lastResponseTimeRef st <= 5600) by (vm_compute; discriminate).
  assert (H2 : 5600 - lastResponseTimeRef st < responseUpdateDelay enhancedDefaults)
    by (vm_compute; reflexivity).
  split; [exact H1|]. split; [exact H2|].
  exact (proj1 (buffered_call_waits_at_most_delay enhancedDefaults 5600 r st H1 H2)).
Defined.

(** The second chunk settles while its placeholder is buffered. *)
Lemma completion_without_placeholder_is_lost_witness :
  let st := run enhancedDefaults twoAdmissions initialState in
  suspended st !! 1%nat = Some "chunk_3600_2"%string
  /\ responses (awaitsDone enhancedDefaults 1 5700 (Content sampleResponse) st)
     = responses st.
Proof.
  intros st.
  assert (H : suspended st !! 1%nat = Some "chunk_3600_2"%string)
    by (vm_compute; reflexivity).
  split; [exact H|].
  refine (proj1 (completion_without_placeholder_is_lost enhancedDefaults st 1
                   "chunk_3600_2" 5700 (Content sampleResponse) H _)).
  intros r Hr. vm_compute in Hr.
  apply list_elem_of_singleton in Hr. subst r. vm_compute. discriminate.
Defined.

(** The list is cleared while the first chunk is in flight. *)
Lemma clear_does_not_cancel_witness :
  let st := run enhancedDefaults twoAdmissions initialState in
  variant enhancedDefaults = Enhanced
  /\ suspended st !! 0%nat = Some "chunk_2500_1"%string
  /\ responses (awaitsDone enhancedDefaults 0 5700 (Content sampleResponse)
                  (clearResponses enhancedDefaults st)) = [].
Proof.
  intros st.
  assert (Hv : variant enhancedDefaults = Enhanced) by reflexivity.
  assert (H : suspended st !! 0%nat = Some "chunk_2500_1"%string)
    by (vm_compute; reflexivity).
  split; [exact Hv|]. split; [exact H|].
  apply (clear_does_not_cancel enhancedDefaults st 0 "chunk_2500_1" 5700
           (Content sampleResponse) Hv H).
Defined.

(** The second chunk settles at 5700; its placeholder is flushed at 6000
    and is still a placeholder. *)
Lemma late_placeholder_stays_processing_witness :
  let st := run enhancedDefaults twoAdmissions initialState in
  let st2 := run enhancedDefaults [FlushTimer 0 6000]
               (awaitsDone enhancedDefaults 1 5700 (Content sampleResponse) st) in
  suspended st !! 1%nat = Some "chunk_3600_2"%string
  /\ GeminiResponse.id <$> responses st2 = ["chunk_3600_2"; "chunk_2500_1"]
  /\ (forall r, r ∈ responses st2 -> GeminiResponse.id r = "chunk_3600_2"%string ->
                GeminiResponse.isProcessing r = true).
Proof.
  intros st st2.
  assert (H : suspended st !! 1%nat = Some "chunk_3600_2"%string)
    by (vm_compute; reflexivity).
  split; [exact H|]. split; [vm_compute; reflexivity|].
  refine (proj2 (late_placeholder_stays_processing enhancedDefaults twoAdmissions
                   [FlushTimer 0 6000] 1 "chunk_3600_2" 5700 (Content sampleResponse)
                   H _)).
  intros r Hr. vm_compute in Hr.
  apply list_elem_of_singleton in Hr. subst r. vm_compute. discriminate.
Defined.

(** Two texts received by the empty history. *)
Lemma legacy_history_keeps_ten_newest_witness :
  let st := Legacy.mkState false [] "" in
  (length (Legacy.responses st) <= 10)%nat
  /\ Legacy.responses (Legacy.receive st [(1000, sampleResponse); (2000, unmarkedText)])
     = [Legacy.parse 2000 unmarkedText; Legacy.parse 1000 sampleResponse].
Proof.
  intros st.
  assert (H : (length (Legacy.responses st) <= 10)%nat) by (cbn; lia).
  split; [exact H|].
  exact (legacy_history_keeps_ten_newest st
           [(1000, sampleResponse); (2000, unmarkedText)] H).
Defined.
